(** * go-todo: the in-memory Todo repository and its HTTP handlers

    The repository holds two programs of package [main].  The first keeps the
    map of todos inside the HTTP handler (gorilla/mux routing); the second
    splits storage into [TodoRepository] and serves it through gin.  Both are
    embedded here: [Module Mux] for the first, [Module Gin] for the second.

    Conventions of the embedding.
    - Go's [uint] and [int] are machine words.  They are modelled as [Z] with
      the wrap-around of [nextID++] written out ([uint_wrap], [int_wrap]),
      at the 64 bits they have on 64-bit targets (on 32-bit targets they
      have 32, and what is said below about [2^64] holds of [2^32]).
    - [time.Time] is modelled as an instant on the integer line; [time.Now()]
      is an explicit argument [now] of every method that reads the clock.
    - Every method body runs under the receiver's mutex, so a method is one
      atomic transition: a function from the state before to the result and
      the state after.
    - A Go [error] is [option error], [None] being [nil]. *)

From Stdlib Require Import ZArith Lia Sorted.
From stdpp Require Import gmap strings list fin_maps.

Local Open Scope Z_scope.

(** ** Machine integers *)

Definition UintSize : Z := 64.
Definition uint_modulus : Z := 2 ^ UintSize.

(** [x mod 2^64]: the value an unsigned word holds after an arithmetic
    operation whose mathematical result is [x]. *)
Definition uint_wrap (x : Z) : Z := x mod uint_modulus.

(** Two's complement wrap-around of a signed word. *)
Definition int_wrap (x : Z) : Z :=
  (x + uint_modulus / 2) mod uint_modulus - uint_modulus / 2.

Abbreviation Time := Z (only parsing).

(** A Go [error] value built by [errors.New] or [http.Error]'s message. *)
Inductive error : Type :=
| errors_New (msg : string).

(** ** The mux program: the handler owns the map

    [todos] is a [map[int]*Todo].  Each pointer is taken from a variable local
    to one [CreateTodo] call and is reachable through the map only, so no two
    keys share a record and writing through the pointer found under a key is
    the same as replacing the value under that key. *)

Module Mux.

Record Todo : Type := mkTodo {
  ID : Z;
  Title : string;
  Completed : bool;
  CreatedAt : Time
}.

Record TodoHandler : Type := mkHandler {
  todos : gmap Z Todo;
  nextID : Z
}.

Definition NewTodoHandler : TodoHandler :=
  {| todos := ∅; nextID := 1 |}.

(** What the handler wrote to the [http.ResponseWriter]. *)
Inductive Response : Type :=
| http_Error (msg : string) (code : Z)
| Encode (code : Z) (todo : Todo)
| Encode_list (code : Z) (todos : list Todo)
| WriteHeader (code : Z).

Definition StatusOK : Z := 200.
Definition StatusCreated : Z := 201.
Definition StatusNoContent : Z := 204.
Definition StatusBadRequest : Z := 400.
Definition StatusNotFound : Z := 404.

(** The outcome of [json.NewDecoder(r.Body).Decode(&todo)]. *)
Inductive Body : Type :=
| Malformed (msg : string)
| Decoded (todo : Todo).

Definition CreateTodo (body : Body) (now : Time) (h : TodoHandler)
  : Response * TodoHandler :=
  match body with
  | Malformed msg => (http_Error msg StatusBadRequest, h)
  | Decoded todo =>
      let todo := {| ID := nextID h; Title := Title todo;
                     Completed := Completed todo; CreatedAt := now |} in
      (Encode StatusCreated todo,
       {| todos := <[ID todo := todo]> (todos h);
          nextID := int_wrap (nextID h + 1) |})
  end.

(** [id] is the outcome of [strconv.Atoi(vars["id"])], [None] on error. *)
Definition UpdateTodo (id : option Z) (body : Body) (h : TodoHandler)
  : Response * TodoHandler :=
  match id with
  | None => (http_Error "無効なID" StatusBadRequest, h)
  | Some id =>
      match todos h !! id with
      | None => (http_Error "Todoが見つかりません" StatusNotFound, h)
      | Some todo =>
          match body with
          | Malformed msg => (http_Error msg StatusBadRequest, h)
          | Decoded updatedTodo =>
              let todo := {| ID := ID todo; Title := Title updatedTodo;
                             Completed := Completed updatedTodo;
                             CreatedAt := CreatedAt todo |} in
              (Encode StatusOK todo,
               {| todos := <[id := todo]> (todos h); nextID := nextID h |})
          end
      end
  end.

(** [for _, todo := range h.todos { todos = append(todos, todo) }].  Go
    leaves the order in which [range] visits a map open; [order] is the
    sequence of keys of one visit, and the loop body runs once per key. *)
Definition range_append (order : list Z) (m : gmap Z Todo) : list Todo :=
  foldl (fun todos k =>
           match m !! k with
           | Some todo => todos ++ [todo]
           | None => todos
           end) [] order.

Definition ListTodos (order : list Z) (h : TodoHandler)
  : Response * TodoHandler :=
  (Encode_list StatusOK (range_append order (todos h)), h).

Definition GetTodo (id : option Z) (h : TodoHandler)
  : Response * TodoHandler :=
  match id with
  | None => (http_Error "無効なID" StatusBadRequest, h)
  | Some id =>
      match todos h !! id with
      | None => (http_Error "Todoが見つかりません" StatusNotFound, h)
      | Some todo => (Encode StatusOK todo, h)
      end
  end.

Definition DeleteTodo (id : option Z) (h : TodoHandler)
  : Response * TodoHandler :=
  match id with
  | None => (http_Error "無効なID" StatusBadRequest, h)
  | Some id =>
      match todos h !! id with
      | None => (http_Error "Todoが見つかりません" StatusNotFound, h)
      | Some _ =>
          (WriteHeader StatusNoContent,
           {| todos := delete id (todos h); nextID := nextID h |})
      end
  end.

(** The routes [main] registers.  A request carries what the handler reads
    from it: the outcome of parsing the [{id}] path variable, the outcome
    of decoding the body, and what the runtime supplies during the call
    (the clock reading, the visiting order of [range]). *)
Inductive Request : Type :=
| GET_todos (order : list Z)
| POST_todos (body : Body) (now : Time)
| GET_todo (id : option Z)
| PUT_todo (id : option Z) (body : Body)
| DELETE_todo (id : option Z).

Definition ServeHTTP (req : Request) (h : TodoHandler)
  : Response * TodoHandler :=
  match req with
  | GET_todos order => ListTodos order h
  | POST_todos body now => CreateTodo body now h
  | GET_todo id => GetTodo id h
  | PUT_todo id body => UpdateTodo id body h
  | DELETE_todo id => DeleteTodo id h
  end.

(** The requests are served one at a time, under the handler's mutex. *)
Fixpoint serve (reqs : list Request) (h : TodoHandler)
  : list Response * TodoHandler :=
  match reqs with
  | [] => ([], h)
  | req :: reqs =>
      let '(resp, h1) := ServeHTTP req h in
      let '(resps, h2) := serve reqs h1 in
      (resp :: resps, h2)
  end.

Definition status (resp : Response) : Z :=
  match resp with
  | http_Error _ code => code
  | Encode code _ => code
  | Encode_list code _ => code
  | WriteHeader code => code
  end.

Definition is_POST (req : Request) : bool :=
  match req with POST_todos _ _ => true | _ => false end.

Definition is_DELETE (req : Request) : bool :=
  match req with DELETE_todo _ => true | _ => false end.

End Mux.

(** ** The gin program: [TodoRepository] and its handlers *)

Module Gin.

Record Todo : Type := mkTodo {
  ID : Z;
  Title : string;
  Completed : bool;
  CreatedAt : Time;
  UpdatedAt : Time
}.

(** [Todo{}], the zero value returned next to a non-nil error. *)
Definition Todo_zero : Todo :=
  {| ID := 0; Title := EmptyString; Completed := false;
     CreatedAt := 0; UpdatedAt := 0 |}.

Record TodoRepository : Type := mkRepo {
  todos : gmap Z Todo;
  nextID : Z
}.

Definition NewTodoRepository : TodoRepository :=
  {| todos := ∅; nextID := 1 |}.

Definition not_found : error := errors_New "todo not found".

(** [FindByID] takes the read lock and only reads; the state it returns is
    the state it was given. *)
Definition FindByID (id : Z) (r : TodoRepository)
  : (Todo * option error) * TodoRepository :=
  match todos r !! id with
  | None => ((Todo_zero, Some not_found), r)
  | Some todo => ((todo, None), r)
  end.

Definition Create (todo : Todo) (now : Time) (r : TodoRepository)
  : Todo * TodoRepository :=
  let todo := {| ID := nextID r; Title := Title todo;
                 Completed := Completed todo;
                 CreatedAt := now; UpdatedAt := now |} in
  (todo, {| todos := <[ID todo := todo]> (todos r);
            nextID := uint_wrap (nextID r + 1) |}).

Definition Update (id : Z) (todo : Todo) (now : Time) (r : TodoRepository)
  : (Todo * option error) * TodoRepository :=
  match todos r !! id with
  | None => ((Todo_zero, Some not_found), r)
  | Some existing =>
      let existing :=
        {| ID := ID existing;
           Title := if bool_decide (Title todo ≠ EmptyString)
                    then Title todo else Title existing;
           Completed := Completed todo;
           CreatedAt := CreatedAt existing;
           UpdatedAt := now |} in
      ((existing, None),
       {| todos := <[id := existing]> (todos r); nextID := nextID r |})
  end.

Definition Delete (id : Z) (r : TodoRepository)
  : option error * TodoRepository :=
  match todos r !! id with
  | None => (Some not_found, r)
  | Some _ => (None, {| todos := delete id (todos r); nextID := nextID r |})
  end.

(** *** Sequences of repository calls

    A client of the repository is a sequence of method calls.  [Op] names a
    call with its arguments (and the clock reading it will see), [Result]
    what the call returned. *)

Inductive Op : Type :=
| OpCreate (todo : Todo) (now : Time)
| OpFindByID (id : Z)
| OpUpdate (id : Z) (todo : Todo) (now : Time)
| OpDelete (id : Z).

Inductive Result : Type :=
| RCreate (created : Todo)
| RFindByID (found : Todo) (err : option error)
| RUpdate (updated : Todo) (err : option error)
| RDelete (err : option error).

Definition step (op : Op) (r : TodoRepository) : Result * TodoRepository :=
  match op with
  | OpCreate todo now =>
      let '(created, r') := Create todo now r in (RCreate created, r')
  | OpFindByID id =>
      let '((found, err), r') := FindByID id r in (RFindByID found err, r')
  | OpUpdate id todo now =>
      let '((updated, err), r') := Update id todo now r in
      (RUpdate updated err, r')
  | OpDelete id =>
      let '(err, r') := Delete id r in (RDelete err, r')
  end.

(** Runs the calls in order; the results come back in call order. *)
Fixpoint run (ops : list Op) (r : TodoRepository)
  : list Result * TodoRepository :=
  match ops with
  | [] => ([], r)
  | op :: ops =>
      let '(res, r1) := step op r in
      let '(ress, r2) := run ops r1 in
      (res :: ress, r2)
  end.

(** The state a fresh repository is in after [ops]. *)
Definition state_after (ops : list Op) : TodoRepository :=
  (run ops NewTodoRepository).2.

Definition is_create (op : Op) : bool :=
  match op with OpCreate _ _ => true | _ => false end.

Definition count_creates (ops : list Op) : nat :=
  length (filter (fun op => is_create op = true) ops).

(** The ids handed out by the [Create] calls of a run, in call order. *)
Fixpoint created_ids (ress : list Result) : list Z :=
  match ress with
  | [] => []
  | RCreate created :: ress => ID created :: created_ids ress
  | _ :: ress => created_ids ress
  end.

(** The records returned by the successful [Update] calls on [id]. *)
Fixpoint updates_of (id : Z) (ops : list Op) (ress : list Result)
  : list Todo :=
  match ops, ress with
  | OpUpdate id' _ _ :: ops, RUpdate updated None :: ress =>
      if bool_decide (id' = id) then updated :: updates_of id ops ress
      else updates_of id ops ress
  | _ :: ops, _ :: ress => updates_of id ops ress
  | _, _ => []
  end.

Definition is_update (op : Op) : bool :=
  match op with OpUpdate _ _ _ => true | _ => false end.

(** [op] is an [Update] call on [id]. *)
Definition updates_id (id : Z) (op : Op) : bool :=
  match op with OpUpdate id' _ _ => bool_decide (id' = id) | _ => false end.

(** *** The HTTP handler of POST /api/todos *)

(** What [c.JSON(code, obj)] writes. *)
Inductive Response : Type :=
| JSON_Todo (code : Z) (obj : Todo)
| JSON_error (code : Z) (msg : string).

Definition StatusCreated : Z := 201.
Definition StatusBadRequest : Z := 400.

(** The request body as the JSON decoder sees it: text that does not decode
    into a [Todo] (with the decoder's message), or the decoded struct. *)
Inductive Body : Type :=
| Malformed (msg : string)
| Decoded (todo : Todo).

Definition required_Title : string :=
  "Key: 'Todo.Title' Error:Field validation for 'Title' failed on the 'required' tag".

(** Modelled from the spec: gin's [ShouldBindJSON] is library code outside
    src/.  It decodes the body into the struct and then checks the struct's
    [binding] tags; [Todo] carries one, [binding:"required"] on [Title], which
    the spec reads as "title must be non-empty" (400 on "invalid body /
    missing title"). *)
Definition ShouldBindJSON (body : Body) : Todo * option error :=
  match body with
  | Malformed msg => (Todo_zero, Some (errors_New msg))
  | Decoded todo =>
      if bool_decide (Title todo = EmptyString)
      then (todo, Some (errors_New required_Title))
      else (todo, None)
  end.

Definition error_Error (e : error) : string :=
  match e with errors_New msg => msg end.

Definition CreateTodo (body : Body) (now : Time) (repo : TodoRepository)
  : Response * TodoRepository :=
  match ShouldBindJSON body with
  | (_, Some err) => (JSON_error StatusBadRequest (error_Error err), repo)
  | (todo, None) =>
      let '(createdTodo, repo') := Create todo now repo in
      (JSON_Todo StatusCreated createdTodo, repo')
  end.

(** *** The other methods and handlers *)

(** [for _, todo := range r.todos { todos = append(todos, todo) }], with
    [order] the sequence of keys in which this [range] visits the map (Go
    leaves that order open). *)
Definition FindAll (order : list Z) (r : TodoRepository)
  : list Todo * TodoRepository :=
  (foldl (fun todos k =>
            match Gin.todos r !! k with
            | Some todo => todos ++ [todo]
            | None => todos
            end) [] order, r).

Definition StatusOK : Z := 200.
Definition StatusNoContent : Z := 204.
Definition StatusNotFound : Z := 404.

(** What a handler hands to the [gin.Context]: [c.JSON] with a record or an
    error object, [c.JSON] with a list, or [c.Status]. *)
Inductive Written : Type :=
| c_JSON (resp : Response)
| c_JSON_list (code : Z) (objs : list Todo)
| c_Status (code : Z).

Definition GetAllTodos (order : list Z) (repo : TodoRepository)
  : Written * TodoRepository :=
  let '(todos, repo') := FindAll order repo in
  (c_JSON_list StatusOK todos, repo').

(** [id] is the outcome of [strconv.ParseUint(c.Param("id"), 10, 32)],
    [None] on error. *)
Definition GetTodo (id : option Z) (repo : TodoRepository)
  : Response * TodoRepository :=
  match id with
  | None => (JSON_error StatusBadRequest "無効なID形式です", repo)
  | Some id =>
      match FindByID id repo with
      | ((_, Some _), repo') =>
          (JSON_error StatusNotFound "TODOが見つかりません", repo')
      | ((todo, None), repo') => (JSON_Todo StatusOK todo, repo')
      end
  end.

Definition UpdateTodo (id : option Z) (body : Body) (now : Time)
    (repo : TodoRepository) : Response * TodoRepository :=
  match id with
  | None => (JSON_error StatusBadRequest "無効なID形式です", repo)
  | Some id =>
      match ShouldBindJSON body with
      | (_, Some err) => (JSON_error StatusBadRequest (error_Error err), repo)
      | (todo, None) =>
          match Update id todo now repo with
          | ((_, Some _), repo') =>
              (JSON_error StatusNotFound "TODOが見つかりません", repo')
          | ((updatedTodo, None), repo') =>
              (JSON_Todo StatusOK updatedTodo, repo')
          end
      end
  end.

Definition DeleteTodo (id : option Z) (repo : TodoRepository)
  : Written * TodoRepository :=
  match id with
  | None => (c_JSON (JSON_error StatusBadRequest "無効なID形式です"), repo)
  | Some id =>
      match Delete id repo with
      | (Some _, repo') =>
          (c_JSON (JSON_error StatusNotFound "TODOが見つかりません"), repo')
      | (None, repo') => (c_Status StatusNoContent, repo')
      end
  end.

(** The routes [main] registers under [/api/todos]. *)
Inductive Request : Type :=
| GET_todos (order : list Z)
| POST_todos (body : Body) (now : Time)
| GET_todo (id : option Z)
| PUT_todo (id : option Z) (body : Body) (now : Time)
| DELETE_todo (id : option Z).

Definition ServeHTTP (req : Request) (repo : TodoRepository)
  : Written * TodoRepository :=
  match req with
  | GET_todos order => GetAllTodos order repo
  | POST_todos body now =>
      let '(resp, repo') := CreateTodo body now repo in (c_JSON resp, repo')
  | GET_todo id =>
      let '(resp, repo') := GetTodo id repo in (c_JSON resp, repo')
  | PUT_todo id body now =>
      let '(resp, repo') := UpdateTodo id body now repo in
      (c_JSON resp, repo')
  | DELETE_todo id => DeleteTodo id repo
  end.

Fixpoint serve (reqs : list Request) (repo : TodoRepository)
  : list Written * TodoRepository :=
  match reqs with
  | [] => ([], repo)
  | req :: reqs =>
      let '(w, repo1) := ServeHTTP req repo in
      let '(ws, repo2) := serve reqs repo1 in
      (w :: ws, repo2)
  end.

Definition status (w : Written) : Z :=
  match w with
  | c_JSON (JSON_Todo code _) => code
  | c_JSON (JSON_error code _) => code
  | c_JSON_list code _ => code
  | c_Status code => code
  end.

End Gin.

(** ** Predicates on repository states *)

Import Gin.

(** Every record sits under its own id. *)
Definition keys_match (r : TodoRepository) : Prop :=
  ∀ k todo, todos r !! k = Some todo → ID todo = k.

(** Every key in use was handed out by a counter that started at 1 and has
    since moved past it. *)
Definition keys_issued (r : TodoRepository) : Prop :=
  ∀ k todo, todos r !! k = Some todo → 1 ≤ k < nextID r.

(** Some stored record carries the id [id]. *)
Definition stored_with_id (r : TodoRepository) (id : Z) (todo : Todo) : Prop :=
  ∃ k, todos r !! k = Some todo ∧ ID todo = id.

(** A [Delete] that found its record. *)
Definition deleted (res : Result) : bool :=
  match res with RDelete None => true | _ => false end.

Definition count_deleted (ress : list Result) : nat :=
  length (filter (fun res => deleted res = true) ress).

(** The clock reading a call sees, if it reads the clock. *)
Definition clock_of (op : Op) : option Time :=
  match op with
  | OpCreate _ now | OpUpdate _ _ now => Some now
  | _ => None
  end.

Definition clock_readings (ops : list Op) : list Time := omap clock_of ops.


(** Every stored record was created no later than it was last updated, and
    no later than [lo]. *)
Definition stamps_ordered (lo : Time) (r : TodoRepository) : Prop :=
  ∀ k todo, todos r !! k = Some todo →
    CreatedAt todo ≤ UpdatedAt todo ∧ CreatedAt todo ≤ lo.

(** Every stored record has a title. *)
Definition titles_present (r : TodoRepository) : Prop :=
  ∀ k todo, todos r !! k = Some todo → Title todo ≠ EmptyString.

(** The repository call a request leads to, if its handler gets that far:
    none when the path id does not parse or the body does not bind, and
    none for the list, which only reads. *)
Definition call_of (req : Request) : option Op :=
  match req with
  | GET_todos _ => None
  | POST_todos body now =>
      match ShouldBindJSON body with
      | (todo, None) => Some (OpCreate todo now)
      | (_, Some _) => None
      end
  | GET_todo (Some id) => Some (OpFindByID id)
  | PUT_todo (Some id) body now =>
      match ShouldBindJSON body with
      | (todo, None) => Some (OpUpdate id todo now)
      | (_, Some _) => None
      end
  | DELETE_todo (Some id) => Some (OpDelete id)
  | GET_todo None | PUT_todo None _ _ | DELETE_todo None => None
  end.

(** The largest [int]. *)
Definition int_max : Z := uint_modulus / 2 - 1.

(** The mux handler's map is in order: every record sits under its own id,
    and every id in use is at least 1 and below the counter. *)
Definition Mux_store_ok (h : Mux.TodoHandler) : Prop :=
  ∀ k todo, Mux.todos h !! k = Some todo →
    Mux.ID todo = k ∧ 1 ≤ k < Mux.nextID h.

(** A POST whose body decodes: the requests that create a todo. *)
Definition Mux_creates (req : Mux.Request) : bool :=
  match req with
  | Mux.POST_todos (Mux.Decoded _) _ => true
  | _ => false
  end.

Definition Mux_count_creates (reqs : list Mux.Request) : nat :=
  length (filter (fun req => Mux_creates req = true) reqs).

(** The ids in the 201 responses, in the order they were sent. *)
Fixpoint Mux_created_ids (resps : list Mux.Response) : list Z :=
  match resps with
  | [] => []
  | Mux.Encode code todo :: resps =>
      if bool_decide (code = Mux.StatusCreated)
      then Mux.ID todo :: Mux_created_ids resps
      else Mux_created_ids resps
  | _ :: resps => Mux_created_ids resps
  end.

(** [op] is a [Delete] call on [id]. *)
Definition deletes_id (id : Z) (op : Op) : bool :=
  match op with OpDelete id' => bool_decide (id' = id) | _ => false end.

(** [req] is a DELETE request for [id]. *)
Definition Mux_deletes_id (id : Z) (req : Mux.Request) : bool :=
  match req with
  | Mux.DELETE_todo (Some id') => bool_decide (id' = id)
  | _ => false
  end.

(** [order] is a visit of the keys of [m]: each key once, nothing else. *)
Definition visits_each_key {A : Type} (order : list Z) (m : gmap Z A) : Prop :=
  NoDup order ∧ ∀ k, k ∈ order ↔ is_Some (m !! k).

(** ** Inputs used in the examples *)

Definition todo_a : Todo :=
  {| ID := 0; Title := "a"; Completed := false;
     CreatedAt := 0; UpdatedAt := 0 |}.

Definition todo_b : Todo :=
  {| ID := 0; Title := "b"; Completed := false;
     CreatedAt := 0; UpdatedAt := 0 |}.

Definition todo_c : Todo :=
  {| ID := 0; Title := "c"; Completed := false;
     CreatedAt := 0; UpdatedAt := 0 |}.

(** The body [{"completed": true}]: no title. *)
Definition patch_done : Todo :=
  {| ID := 0; Title := EmptyString; Completed := true;
     CreatedAt := 0; UpdatedAt := 0 |}.

(** The scenario of the specification: create "a" and "b", delete 1, look 1
    up, create "c", update 2 with an empty title and [completed = true]. *)
Definition scenario_ops : list Op :=
  [OpCreate todo_a 10; OpCreate todo_b 20; OpDelete 1; OpFindByID 1;
   OpCreate todo_c 30; OpUpdate 2 patch_done 40].

Definition stored_a : Todo :=
  {| ID := 1; Title := "a"; Completed := false;
     CreatedAt := 10; UpdatedAt := 10 |}.

Definition stored_b : Todo :=
  {| ID := 2; Title := "b"; Completed := false;
     CreatedAt := 20; UpdatedAt := 20 |}.

(** The repository after the first two calls of the scenario. *)
Definition two_todos : TodoRepository :=
  {| todos := {[ 1 := stored_a; 2 := stored_b ]}; nextID := 3 |}.

(** Updates after a [Create]: two on the new id 3, one on id 1. *)
Definition later_updates : list Op :=
  [OpUpdate 3 patch_done 40; OpUpdate 1 todo_b 50; OpUpdate 3 todo_a 60].

(** The scenario as requests to the mux program; the last body has no
    title. *)
Definition Mux_todo (title : string) (completed : bool) : Mux.Todo :=
  {| Mux.ID := 0; Mux.Title := title; Mux.Completed := completed;
     Mux.CreatedAt := 0 |}.

Definition Mux_scenario : list Mux.Request :=
  [Mux.POST_todos (Mux.Decoded (Mux_todo "a" false)) 10;
   Mux.POST_todos (Mux.Decoded (Mux_todo "b" false)) 20;
   Mux.DELETE_todo (Some 1);
   Mux.GET_todo (Some 1);
   Mux.POST_todos (Mux.Decoded (Mux_todo "c" false)) 30].

Definition Mux_later : list Mux.Request :=
  [Mux.PUT_todo (Some 2) (Mux.Decoded (Mux_todo EmptyString true));
   Mux.DELETE_todo (Some 3);
   Mux.POST_todos (Mux.Decoded (Mux_todo "d" false)) 50;
   Mux.GET_todos [2; 4]].

(** [n] rounds of "create a todo, delete it again", the first round
    expecting id [id]: the map never holds more than one record. *)
Fixpoint churn (id : Z) (n : nat) : list Op :=
  match n with
  | O => []
  | S n => OpCreate todo_a 0 :: OpDelete id :: churn (uint_wrap (id + 1)) n
  end.

(** As many rounds as the counter has values left before it wraps,
    [2^64 - 1] of them. *)
Definition exhausting_churn : list Op :=
  churn 1 (Z.to_nat (uint_modulus - 1)).

(** Two more: [2^64 + 1] rounds. *)
Definition wrapping_churn : list Op :=
  churn 1 (Z.to_nat (uint_modulus + 1)).

(** * Properties of the repository *)

(** ** Single calls *)

Section SingleCalls.

Variables (r : TodoRepository) (now : Time).

(** C2.  Whatever record is passed in, [Create] gives it the counter's value
    as id and the clock reading as both timestamps, keeps the caller's title
    and completed flag, stores the result under the new id, touches no other
    key, advances the counter by one (as a machine word) and returns exactly
    the record it stored.  The id and timestamps the caller put in the input
    have no influence on the outcome. *)
Theorem Create_assigns_and_stores (todo : Todo) :
  let '(created, r') := Create todo now r in
  created = {| ID := nextID r; Title := Title todo;
               Completed := Completed todo;
               CreatedAt := now; UpdatedAt := now |}
  ∧ todos r' !! nextID r = Some created
  ∧ (∀ k, k ≠ nextID r → todos r' !! k = todos r !! k)
  ∧ nextID r' = uint_wrap (nextID r + 1)
  ∧ (nextID r + 1 < uint_modulus → 0 ≤ nextID r → nextID r' = nextID r + 1)
  ∧ ∀ id created_at updated_at,
      Create {| ID := id; Title := Title todo; Completed := Completed todo;
                CreatedAt := created_at; UpdatedAt := updated_at |} now r
      = (created, r').
Proof.
  cbn. repeat split.
  - apply lookup_insert_eq.
  - intros k Hk. by rewrite lookup_insert_ne.
  - intros Hlt Hge. unfold uint_wrap. apply Z.mod_small. lia.
Qed.

(** C3.  [Update] on an id that is present returns no error and a record
    that differs from the stored one in exactly this way: the title is the
    supplied one when that is non-empty and the stored one otherwise, the
    completed flag is the supplied one (whatever it is), [UpdatedAt] is the
    clock reading; id and [CreatedAt] are the stored ones.  That record
    replaces the stored one; nothing else in the repository changes. *)
Theorem Update_present_fields (id : Z) (todo existing : Todo) :
  todos r !! id = Some existing →
  let '((updated, err), r') := Update id todo now r in
  err = None
  ∧ (Title todo ≠ EmptyString → Title updated = Title todo)
  ∧ (Title todo = EmptyString → Title updated = Title existing)
  ∧ Completed updated = Completed todo
  ∧ UpdatedAt updated = now
  ∧ ID updated = ID existing
  ∧ CreatedAt updated = CreatedAt existing
  ∧ todos r' !! id = Some updated
  ∧ (∀ k, k ≠ id → todos r' !! k = todos r !! k)
  ∧ nextID r' = nextID r.
Proof.
  intros Hex. unfold Update. rewrite Hex. cbn.
  split; [done|].
  split; [intros Hne; by rewrite bool_decide_eq_true_2|].
  split; [intros Heq; by rewrite bool_decide_eq_false_2; [|intros Hne; auto]|].
  repeat split.
  - apply lookup_insert_eq.
  - intros k Hk. by rewrite lookup_insert_ne.
Qed.

(** C5.  On an id with no record in the map, [FindByID], [Update] and
    [Delete] all return the "todo not found" error, the two that return a
    record return the zero [Todo], and the repository (map and counter) is
    the one they were given. *)
Theorem absent_id_not_found (id : Z) (todo : Todo) :
  todos r !! id = None →
  FindByID id r = ((Todo_zero, Some not_found), r)
  ∧ Update id todo now r = ((Todo_zero, Some not_found), r)
  ∧ Delete id r = (Some not_found, r).
Proof.
  intros Habs. unfold FindByID, Update, Delete. by rewrite Habs.
Qed.

(** C7.  Looking up the id of the record [Create] has just returned finds
    that very record, with no error.  This holds for every input, so in
    particular for those with a non-empty title. *)
Theorem Create_FindByID_roundtrip (todo : Todo) :
  let '(created, r') := Create todo now r in
  FindByID (ID created) r' = ((created, None), r').
Proof.
  cbn. unfold FindByID. cbn. by rewrite lookup_insert_eq.
Qed.

End SingleCalls.


Lemma run_cons (op : Op) (ops : list Op) (r : TodoRepository) :
  run (op :: ops) r
  = ((step op r).1 :: (run ops (step op r).2).1, (run ops (step op r).2).2).
Proof.
  cbn. destruct (step op r) as [res r1]. cbn.
  by destruct (run ops r1) as [ress r2].
Qed.



(** ** Runs *)

Lemma run_app (ops1 ops2 : list Op) (r : TodoRepository) :
  run (ops1 ++ ops2) r
  = ((run ops1 r).1 ++ (run ops2 (run ops1 r).2).1,
     (run ops2 (run ops1 r).2).2).
Proof.
  revert r. induction ops1 as [|op ops1 IH]; intros r.
  - cbn. by destruct (run ops2 r).
  - rewrite <- app_comm_cons, !run_cons, IH. done.
Qed.

Lemma uint_modulus_pos : 0 < uint_modulus.
Proof. done. Qed.

Lemma uint_wrap_small (x : Z) : 0 ≤ x < uint_modulus → uint_wrap x = x.
Proof. apply Z.mod_small. Qed.

Lemma uint_wrap_range (x : Z) : 0 ≤ uint_wrap x < uint_modulus.
Proof. apply Z.mod_pos_bound, uint_modulus_pos. Qed.

Lemma uint_wrap_add_l (x y : Z) : uint_wrap (uint_wrap x + y) = uint_wrap (x + y).
Proof. apply Zplus_mod_idemp_l. Qed.

Lemma step_nextID (op : Op) (r : TodoRepository) :
  nextID (step op r).2
  = if is_create op then uint_wrap (nextID r + 1) else nextID r.
Proof.
  destruct op as [todo now|k|k todo now|k]; cbn; [done|..].
  - unfold FindByID. by destruct (todos r !! k).
  - unfold Update. by destruct (todos r !! k).
  - unfold Delete. by destruct (todos r !! k).
Qed.

Lemma count_creates_cons (op : Op) (ops : list Op) :
  count_creates (op :: ops)
  = if is_create op then S (count_creates ops) else count_creates ops.
Proof.
  unfold count_creates. rewrite filter_cons.
  destruct (is_create op); by case_decide.
Qed.

Lemma created_ids_step (op : Op) (r : TodoRepository) (ress : list Result) :
  created_ids ((step op r).1 :: ress)
  = if is_create op then nextID r :: created_ids ress else created_ids ress.
Proof.
  destruct op as [todo now|k|k todo now|k]; cbn; [done|..].
  - unfold FindByID. by destruct (todos r !! k).
  - unfold Update. by destruct (todos r !! k).
  - unfold Delete. by destruct (todos r !! k).
Qed.

(** The counter is a word-sized odometer: the [j]-th [Create] of a run
    (counting from 0) is given the start value plus [j], wrapped. *)
Lemma run_created_ids (ops : list Op) (r : TodoRepository) :
  0 ≤ nextID r < uint_modulus →
  created_ids (run ops r).1
  = (fun j : nat => uint_wrap (nextID r + Z.of_nat j))
      <$> seq 0 (count_creates ops)
  ∧ nextID (run ops r).2 = uint_wrap (nextID r + Z.of_nat (count_creates ops)).
Proof.
  revert r. induction ops as [|op ops IH]; intros r Hr.
  - cbn. by rewrite Z.add_0_r, uint_wrap_small.
  - rewrite run_cons, count_creates_cons. cbn [fst snd].
    rewrite created_ids_step.
    pose proof (step_nextID op r) as Hn.
    destruct (is_create op).
    + destruct (IH (step op r).2) as [IH1 IH2].
      { rewrite Hn. apply uint_wrap_range. }
      rewrite IH1, IH2, Hn. split.
      * cbn [seq]. rewrite fmap_cons. f_equal.
        { change (Z.of_nat 0) with 0. by rewrite Z.add_0_r, uint_wrap_small. }
        rewrite <- fmap_S_seq, <- list_fmap_compose.
        apply list_fmap_ext. intros _ j _. cbn [compose].
        rewrite uint_wrap_add_l. f_equal. lia.
      * rewrite uint_wrap_add_l. f_equal. lia.
    + destruct (IH (step op r).2) as [IH1 IH2]; [by rewrite Hn|].
      by rewrite IH1, IH2, Hn.
Qed.

(** ** Invariants of the reachable states *)

Lemma step_keys_match (op : Op) (r : TodoRepository) :
  keys_match r → keys_match (step op r).2.
Proof.
  intros Hr. destruct op as [todo now|id|id todo now|id]; cbn.
  - intros k t. cbn. rewrite lookup_insert. case_decide as Hk.
    + intros [= <-]. done.
    + apply Hr.
  - unfold FindByID. by destruct (todos r !! id).
  - unfold Update. destruct (todos r !! id) as [existing|] eqn:Hid; [|done].
    intros k t. cbn. rewrite lookup_insert. case_decide as Hk.
    + intros [= <-]. cbn. subst k. by apply Hr.
    + apply Hr.
  - unfold Delete. destruct (todos r !! id) as [existing|] eqn:Hid; [|done].
    intros k t. cbn. rewrite lookup_delete_Some. intros [_ Hk]. by apply Hr.
Qed.

Lemma run_keys_match (ops : list Op) (r : TodoRepository) :
  keys_match r → keys_match (run ops r).2.
Proof.
  revert r. induction ops as [|op ops IH]; intros r Hr; [done|].
  rewrite run_cons. cbn [snd]. by apply IH, step_keys_match.
Qed.

Lemma NewTodoRepository_keys_match : keys_match NewTodoRepository.
Proof. intros k t. cbn. by rewrite lookup_empty. Qed.

Lemma state_after_keys_match (ops : list Op) : keys_match (state_after ops).
Proof. apply run_keys_match, NewTodoRepository_keys_match. Qed.

Lemma step_keys_issued (op : Op) (r : TodoRepository) :
  keys_issued r → 1 ≤ nextID r →
  nextID r + (if is_create op then 1 else 0) < uint_modulus →
  keys_issued (step op r).2
  ∧ nextID (step op r).2 = nextID r + (if is_create op then 1 else 0).
Proof.
  intros Hr H1 Hlt. rewrite step_nextID.
  destruct op as [todo now|id|id todo now|id]; cbn in *.
  - rewrite uint_wrap_small by lia. split; [|done].
    intros k t. cbn. rewrite lookup_insert. case_decide as Hk.
    + intros _. lia.
    + intros Hkt. specialize (Hr k t Hkt). lia.
  - rewrite Z.add_0_r. split; [|done].
    unfold FindByID. by destruct (todos r !! id).
  - rewrite Z.add_0_r. split; [|done].
    unfold Update. destruct (todos r !! id) as [existing|] eqn:Hid; [|done].
    intros k t. cbn. rewrite lookup_insert. case_decide as Hk.
    + intros _. subst k. by apply (Hr id existing).
    + apply Hr.
  - rewrite Z.add_0_r. split; [|done].
    unfold Delete. destruct (todos r !! id) as [existing|] eqn:Hid; [|done].
    intros k t. cbn. rewrite lookup_delete_Some. intros [_ Hk].
    by apply (Hr k t).
Qed.

Lemma run_keys_issued (ops : list Op) (r : TodoRepository) :
  keys_issued r → 1 ≤ nextID r →
  nextID r + Z.of_nat (count_creates ops) < uint_modulus →
  keys_issued (run ops r).2
  ∧ nextID (run ops r).2 = nextID r + Z.of_nat (count_creates ops).
Proof.
  revert r. induction ops as [|op ops IH]; intros r Hr H1 Hlt.
  - cbn. split; [done|lia].
  - rewrite run_cons. cbn [snd]. rewrite count_creates_cons in *.
    destruct (step_keys_issued op r Hr H1) as [Hs Hn].
    { destruct (is_create op); lia. }
    destruct (IH (step op r).2 Hs) as [IH1 IH2].
    { rewrite Hn. destruct (is_create op); lia. }
    { rewrite Hn. destruct (is_create op); lia. }
    split; [done|]. rewrite IH2, Hn. destruct (is_create op); lia.
Qed.

Lemma NewTodoRepository_keys_issued : keys_issued NewTodoRepository.
Proof. intros k t. cbn. by rewrite lookup_empty. Qed.

(** C10, with the bound the machine counter needs.  After any run of
    [Create], [FindByID], [Update] and [Delete] calls on a fresh repository
    in which [Create] was called fewer than [2^64 - 1] times: every record
    sits under its own id, every stored id is at least 1 and strictly below
    the counter, the counter is one more than the number of [Create] calls
    (so at least 1), and [FindByID 0] fails. *)
Theorem reachable_store_invariant (ops : list Op) :
  Z.of_nat (count_creates ops) < uint_modulus - 1 →
  let r := state_after ops in
  keys_match r
  ∧ (∀ k todo, todos r !! k = Some todo → 1 ≤ ID todo < nextID r)
  ∧ nextID r = 1 + Z.of_nat (count_creates ops)
  ∧ 1 ≤ nextID r
  ∧ FindByID 0 r = ((Todo_zero, Some not_found), r).
Proof.
  intros Hlt. cbn zeta.
  pose proof (state_after_keys_match ops) as Hkm.
  destruct (run_keys_issued ops NewTodoRepository) as [Hki Hn];
    [apply NewTodoRepository_keys_issued|done|cbn; lia|].
  fold (state_after ops) in Hki, Hn. cbn in Hn.
  split; [done|].
  split. { intros k t Hkt. rewrite (Hkm k t Hkt). by apply (Hki k t). }
  split; [done|]. split; [lia|].
  unfold FindByID. destruct (todos (state_after ops) !! 0) as [t|] eqn:H0; [|done].
  specialize (Hki 0 t H0). lia.
Qed.

(** C9.  In every state a fresh repository can reach, and for every id:
    a stored record whose id field is [id] is what [FindByID id] returns,
    with no error; [FindByID id] returns the not-found error (and the zero
    record) exactly when no stored record has that id field; and either way
    the repository is left as it was. *)
Theorem FindByID_found_iff (ops : list Op) (id : Z) :
  let r := state_after ops in
  (∀ todo, stored_with_id r id todo → FindByID id r = ((todo, None), r))
  ∧ ((∀ todo, ¬ stored_with_id r id todo)
     ↔ FindByID id r = ((Todo_zero, Some not_found), r))
  ∧ (FindByID id r).2 = r.
Proof.
  cbn zeta. pose proof (state_after_keys_match ops) as Hkm.
  set (r := state_after ops) in *.
  assert (Hstored : ∀ todo, stored_with_id r id todo ↔ todos r !! id = Some todo).
  { intros todo. split.
    - intros (k & Hk & Hid). rewrite <- Hid, (Hkm k todo Hk). done.
    - intros Hid. exists id. split; [done|]. by apply Hkm. }
  unfold FindByID. split; [|split].
  - intros todo Hst. apply Hstored in Hst. by rewrite Hst.
  - split.
    + intros Hno. destruct (todos r !! id) as [t|] eqn:Hid; [|done].
      destruct (Hno t). by apply Hstored.
    + intros Hf todo Hst. apply Hstored in Hst. rewrite Hst in Hf. done.
  - by destruct (todos r !! id).
Qed.

(** ** The ids [Create] hands out *)

(** C1, with the bound the machine counter needs.  In a run on a fresh
    repository with at most [2^64 - 1] calls of [Create], whatever other
    calls come in between: the ids handed out are 1, 2, 3, ... in call
    order; so the first is 1, each is strictly greater than every earlier
    one, and none is handed out twice, deletions notwithstanding.  In the
    state reached, no two keys hold records with the same id. *)
Theorem Create_ids_strictly_increase (ops : list Op) :
  Z.of_nat (count_creates ops) < uint_modulus →
  let ids := created_ids (run ops NewTodoRepository).1 in
  let r := state_after ops in
  ids = seqZ 1 (Z.of_nat (count_creates ops))
  ∧ (∀ a, ids !! 0%nat = Some a → a = 1)
  ∧ (∀ i j a b, ids !! i = Some a → ids !! j = Some b → (i < j)%nat → a < b)
  ∧ NoDup ids
  ∧ (∀ k1 k2 todo1 todo2,
       todos r !! k1 = Some todo1 → todos r !! k2 = Some todo2 →
       ID todo1 = ID todo2 → k1 = k2).
Proof.
  intros Hlt. cbn zeta.
  destruct (run_created_ids ops NewTodoRepository) as [Hids _]; [done|].
  assert (Heq : created_ids (run ops NewTodoRepository).1
                = seqZ 1 (Z.of_nat (count_creates ops))).
  { rewrite Hids. unfold seqZ. rewrite Nat2Z.id.
    apply list_fmap_ext. intros i j Hj. apply lookup_seq in Hj as [-> Hj].
    cbn [nextID NewTodoRepository]. rewrite uint_wrap_small; lia. }
  rewrite Heq. split; [done|]. split; [|split; [|split]].
  - intros a Ha. apply lookup_seqZ in Ha. lia.
  - intros i j a b Ha Hb Hij. apply lookup_seqZ in Ha, Hb. lia.
  - apply NoDup_seqZ.
  - intros k1 k2 t1 t2 H1 H2 Hid.
    pose proof (state_after_keys_match ops) as Hkm.
    rewrite <- (Hkm k1 t1 H1), <- (Hkm k2 t2 H2). done.
Qed.

Lemma count_creates_churn (id : Z) (n : nat) :
  count_creates (churn id n) = n.
Proof.
  revert id. induction n as [|n IH]; intros id; [done|].
  cbn [churn]. rewrite !count_creates_cons. cbn [is_create]. by rewrite IH.
Qed.

(** What the [Create] of round [j] (counting from 0) is given. *)
Lemma churn_create_ids (id : Z) (n j : nat) (r : TodoRepository) :
  0 ≤ nextID r < uint_modulus → (j < n)%nat →
  created_ids (run (churn id n) r).1 !! j
  = Some (uint_wrap (nextID r + Z.of_nat j)).
Proof.
  intros Hr Hj. destruct (run_created_ids (churn id n) r Hr) as [-> _].
  rewrite count_creates_churn, list_lookup_fmap, lookup_seq_lt by done.
  done.
Qed.

Lemma churn_nextID (id : Z) (n : nat) (r : TodoRepository) :
  0 ≤ nextID r < uint_modulus →
  nextID (run (churn id n) r).2 = uint_wrap (nextID r + Z.of_nat n).
Proof.
  intros Hr. destruct (run_created_ids (churn id n) r Hr) as [_ ->].
  by rewrite count_creates_churn.
Qed.

(** Each round deletes what it created: an empty map stays empty. *)
Lemma churn_todos_empty (n : nat) (r : TodoRepository) :
  todos r = ∅ → todos (run (churn (nextID r) n) r).2 = ∅.
Proof.
  revert r. induction n as [|n IH]; intros r Hr; [done|].
  cbn [churn]. rewrite !run_cons. cbn [snd].
  set (r1 := (step (OpCreate todo_a 0) r).2).
  assert (H1 : todos r1 !! nextID r = Some (Create todo_a 0 r).1)
    by apply lookup_insert_eq.
  set (r2 := (step (OpDelete (nextID r)) r1).2).
  assert (H2 : todos r2 = ∅ ∧ nextID r2 = uint_wrap (nextID r + 1)).
  { unfold r2. cbn [step]. unfold Delete. rewrite H1. cbn.
    by rewrite Hr, delete_insert_eq, delete_empty. }
  destruct H2 as [H2 H3]. rewrite <- H3. by apply IH.
Qed.

Lemma uint_wrap_modulus : uint_wrap uint_modulus = 0.
Proof. apply Z_mod_same_full. Qed.

Lemma uint_wrap_succ_modulus : uint_wrap (1 + uint_modulus) = 1.
Proof. reflexivity. Qed.

Lemma NewTodoRepository_nextID_range :
  0 ≤ nextID NewTodoRepository < uint_modulus.
Proof. done. Qed.

(** C1 as stated fails at the wrap of the counter.  Run [2^64 + 1] rounds
    of "create, then delete what was created" on a fresh repository.  The
    first [Create] is given id 1; the [2^64]-th is given id 0, which is not
    greater than 1; the one after it is given id 1 a second time, long after
    the record that held id 1 was deleted.  (The map is empty after every
    round, so the run needs time but no memory.) *)
Lemma Create_ids_wrap_around :
  let ids := created_ids (run wrapping_churn NewTodoRepository).1 in
  ids !! 0%nat = Some 1
  ∧ ids !! Z.to_nat (uint_modulus - 1) = Some 0
  ∧ ids !! Z.to_nat uint_modulus = Some 1
  ∧ todos (state_after wrapping_churn) = ∅.
Proof.
  cbn zeta. unfold wrapping_churn.
  pose proof uint_modulus_pos as Hpos.
  pose proof NewTodoRepository_nextID_range as Hr.
  split; [|split; [|split]].
  - rewrite churn_create_ids; [|exact Hr|lia].
    change (nextID NewTodoRepository + Z.of_nat 0) with 1.
    reflexivity.
  - rewrite churn_create_ids; [|exact Hr|lia].
    rewrite Z2Nat.id by lia.
    replace (nextID NewTodoRepository + (uint_modulus - 1))
      with uint_modulus by (change (nextID NewTodoRepository) with 1; lia).
    by rewrite uint_wrap_modulus.
  - rewrite churn_create_ids; [|exact Hr|lia].
    rewrite Z2Nat.id by lia.
    change (nextID NewTodoRepository) with 1.
    by rewrite uint_wrap_succ_modulus.
  - exact (churn_todos_empty (Z.to_nat (uint_modulus + 1))
             NewTodoRepository eq_refl).
Qed.

Lemma state_after_snoc (ops : list Op) (op : Op) :
  state_after (ops ++ [op]) = (step op (state_after ops)).2.
Proof.
  unfold state_after. rewrite run_app. cbn [snd].
  generalize (run ops NewTodoRepository).2. intros r.
  cbn. by destruct (step op r).
Qed.

Lemma lookup_created (todo : Todo) (now : Time) (r : TodoRepository) :
  todos (Create todo now r).2 !! nextID r = Some (Create todo now r).1.
Proof. cbn. apply lookup_insert_eq. Qed.

(** C10 as stated fails at the wrap of the counter.  After [2^64 - 1]
    rounds of "create, then delete what was created" on a fresh repository
    the counter is 0, not at least 1; one more [Create] stores its record
    under id 0, and [FindByID 0] returns it without error. *)
Lemma counter_wraps_to_zero :
  nextID (state_after exhausting_churn) = 0
  ∧ (FindByID 0 (state_after (exhausting_churn ++ [OpCreate todo_a 0]))).1
    = ({| ID := 0; Title := "a"; Completed := false;
          CreatedAt := 0; UpdatedAt := 0 |}, None).
Proof.
  pose proof uint_modulus_pos as Hpos.
  assert (Hn : nextID (state_after exhausting_churn) = 0).
  { unfold state_after, exhausting_churn.
    rewrite churn_nextID by exact NewTodoRepository_nextID_range.
    rewrite Z2Nat.id by lia.
    replace (nextID NewTodoRepository + (uint_modulus - 1))
      with uint_modulus by (change (nextID NewTodoRepository) with 1; lia).
    apply uint_wrap_modulus. }
  split; [exact Hn|].
  rewrite state_after_snoc.
  revert Hn. generalize (state_after exhausting_churn). intros r Hn.
  change (step (OpCreate todo_a 0) r).2 with (Create todo_a 0 r).2.
  unfold FindByID. rewrite <- Hn at 1. rewrite lookup_created.
  cbn. by rewrite Hn.
Qed.

(** ** Validation of the title *)

(** C4 as stated fails on the repository method.  [Create] on a fresh
    repository with an empty title stores the record under id 1 and returns
    it; its result type has no error to return. *)
Lemma Create_accepts_empty_title :
  Create patch_done 7 NewTodoRepository
  = ({| ID := 1; Title := EmptyString; Completed := true;
        CreatedAt := 7; UpdatedAt := 7 |},
     {| todos := {[ 1 := {| ID := 1; Title := EmptyString; Completed := true;
                            CreatedAt := 7; UpdatedAt := 7 |} ]};
        nextID := 2 |}).
Proof. reflexivity. Qed.

(** C4, placed where the code has the check.  [Create] itself accepts every
    input, an empty title included: it stores and returns a record.  The
    check is the [binding:"required"] tag applied by the gin handler
    [CreateTodo] before it calls [Create]: on a body whose title is empty
    (or that does not decode) the handler answers 400 and the repository is
    untouched; on a body with a non-empty title it answers 201 with the
    record [Create] returned, and the repository is the one [Create]
    left. *)
Theorem CreateTodo_validates_title (todo : Todo) (now : Time)
    (repo : TodoRepository) :
  todos (Create todo now repo).2 !! nextID repo = Some (Create todo now repo).1
  ∧ Title (Create todo now repo).1 = Title todo
  ∧ (Title todo = EmptyString →
       CreateTodo (Decoded todo) now repo
       = (JSON_error StatusBadRequest required_Title, repo))
  ∧ (∀ msg, CreateTodo (Malformed msg) now repo
            = (JSON_error StatusBadRequest msg, repo))
  ∧ (Title todo ≠ EmptyString →
       CreateTodo (Decoded todo) now repo
       = (JSON_Todo StatusCreated (Create todo now repo).1,
          (Create todo now repo).2)).
Proof.
  split; [apply lookup_created|]. split; [done|].
  unfold CreateTodo, ShouldBindJSON. split; [|split].
  - intros Hempty. by rewrite bool_decide_eq_true_2.
  - done.
  - intros Hne. by rewrite bool_decide_eq_false_2.
Qed.

(** ** What [Update] leaves alone *)

Lemma updates_of_step (id : Z) (op : Op) (ops : list Op) (r : TodoRepository)
    (ress : list Result) (existing : Todo) :
  is_update op = true →
  todos r !! id = Some existing →
  ∃ stored,
    todos (step op r).2 !! id = Some stored
    ∧ ID stored = ID existing ∧ CreatedAt stored = CreatedAt existing
    ∧ updates_of id (op :: ops) ((step op r).1 :: ress)
      = if updates_id id op then stored :: updates_of id ops ress
        else updates_of id ops ress.
Proof.
  intros Hop Hid. destruct op as [|?|k todo now|?]; try done. clear Hop.
  cbn [step updates_id]. unfold Update.
  destruct (decide (k = id)) as [->|Hne].
  - rewrite Hid. cbn.
    rewrite lookup_insert_eq, (bool_decide_eq_true_2 (id = id)) by done.
    eexists. split; [done|]. done.
  - rewrite (bool_decide_eq_false_2 (k = id)) by done.
    destruct (todos r !! k) as [other|] eqn:Hk; cbn.
    + rewrite lookup_insert_ne, (bool_decide_eq_false_2 (k = id)) by done.
      by exists existing.
    + by exists existing.
Qed.

Lemma run_updates_keep (id : Z) (ops : list Op) (r : TodoRepository)
    (existing : Todo) :
  Forall (fun op => is_update op = true) ops →
  todos r !! id = Some existing →
  Forall (fun updated => ID updated = ID existing
                         ∧ CreatedAt updated = CreatedAt existing)
    (updates_of id ops (run ops r).1)
  ∧ length (updates_of id ops (run ops r).1)
    = length (filter (fun op => updates_id id op = true) ops)
  ∧ ∃ stored, todos (run ops r).2 !! id = Some stored
      ∧ ID stored = ID existing ∧ CreatedAt stored = CreatedAt existing.
Proof.
  intros Hops. revert r existing.
  induction Hops as [|op ops Hop _ IH]; intros r existing Hid.
  - cbn. split; [done|]. split; [done|]. by exists existing.
  - rewrite run_cons. cbn [fst snd].
    destruct (updates_of_step id op ops r (run ops (step op r).2).1
                existing Hop Hid) as (stored & Hst & HID & HCA & ->).
    destruct (IH _ _ Hst) as (IH1 & IH2 & stored' & Hst' & HID' & HCA').
    rewrite HID, HCA in IH1. rewrite filter_cons.
    split; [|split].
    + destruct (updates_id id op); [apply Forall_cons|]; done.
    + destruct (updates_id id op); case_decide; try done. cbn. by rewrite IH2.
    + exists stored'. split; [done|]. split; congruence.
Qed.

(** C6.  Take the record [Create] returned and any sequence of [Update]
    calls after it, on any ids and with any arguments.  Every [Update] on
    the created id in that sequence succeeds, and the record it returns has
    the id and the [CreatedAt] that [Create] returned; so has the record
    stored under that id when the sequence is over. *)
Theorem Update_keeps_ID_and_CreatedAt (r : TodoRepository) (todo : Todo)
    (now : Time) (ops : list Op) :
  Forall (fun op => is_update op = true) ops →
  let '(created, r1) := Create todo now r in
  let '(ress, r2) := run ops r1 in
  Forall (fun updated => ID updated = ID created
                         ∧ CreatedAt updated = CreatedAt created)
    (updates_of (ID created) ops ress)
  ∧ length (updates_of (ID created) ops ress)
    = length (filter (fun op => updates_id (ID created) op = true) ops)
  ∧ ∃ stored, todos r2 !! ID created = Some stored
      ∧ ID stored = ID created ∧ CreatedAt stored = CreatedAt created.
Proof.
  intros Hops.
  destruct (Create todo now r) as [created r1] eqn:HC.
  pose proof (lookup_created todo now r) as Hst. rewrite HC in Hst.
  assert (HID : ID created = nextID r) by (by injection HC as <- _).
  rewrite <- HID in Hst. cbn [fst snd] in Hst.
  pose proof (run_updates_keep (ID created) ops r1 created Hops Hst) as H.
  by destruct (run ops r1) as [ress r2].
Qed.

(** ** The mux program *)

(** The handler of the first program has no check on the title: a body
    that decodes to an empty title is stored under the next id. *)
Lemma Mux_CreateTodo_accepts_empty_title (todo : Mux.Todo) (now : Time)
    (h : Mux.TodoHandler) :
  Mux.Title todo = EmptyString →
  let '(resp, h') := Mux.CreateTodo (Mux.Decoded todo) now h in
  ∃ stored, resp = Mux.Encode Mux.StatusCreated stored
    ∧ Mux.todos h' !! Mux.nextID h = Some stored
    ∧ Mux.Title stored = EmptyString.
Proof.
  intros Hempty. cbn. eexists. split; [done|].
  split; [apply lookup_insert_eq|done].
Qed.

(** Its [UpdateTodo] replaces title and completed flag and leaves id and
    [CreatedAt] as stored, whatever the body carries in those fields. *)
Lemma Mux_UpdateTodo_keeps_ID_and_CreatedAt (id : Z) (todo updatedTodo : Mux.Todo)
    (h : Mux.TodoHandler) :
  Mux.todos h !! id = Some todo →
  let '(resp, h') := Mux.UpdateTodo (Some id) (Mux.Decoded updatedTodo) h in
  ∃ stored, resp = Mux.Encode Mux.StatusOK stored
    ∧ Mux.todos h' !! id = Some stored
    ∧ Mux.ID stored = Mux.ID todo
    ∧ Mux.CreatedAt stored = Mux.CreatedAt todo
    ∧ Mux.Title stored = Mux.Title updatedTodo
    ∧ Mux.Completed stored = Mux.Completed updatedTodo.
Proof.
  intros Hid. unfold Mux.UpdateTodo. rewrite Hid. cbn.
  eexists. split; [done|]. split; [apply lookup_insert_eq|done].
Qed.

(** ** The scenario of the specification, and the theorems at work on it *)

Example two_todos_reached :
  state_after [OpCreate todo_a 10; OpCreate todo_b 20] = two_todos.
Proof. reflexivity. Qed.

Example scenario_results :
  (run scenario_ops NewTodoRepository).1
  = [RCreate stored_a;
     RCreate stored_b;
     RDelete None;
     RFindByID Todo_zero (Some not_found);
     RCreate {| ID := 3; Title := "c"; Completed := false;
                CreatedAt := 30; UpdatedAt := 30 |};
     RUpdate {| ID := 2; Title := "b"; Completed := true;
                CreatedAt := 20; UpdatedAt := 40 |} None].
Proof. reflexivity. Qed.

(** The last call of the scenario: [Update 2] with an empty title and
    [completed = true] on the repository holding "a" and "b". *)
Lemma Update_present_fields_witness :
  todos two_todos !! 2 = Some stored_b
  ∧ let '((updated, err), r') := Update 2 patch_done 40 two_todos in
    err = None
    ∧ (Title patch_done ≠ EmptyString → Title updated = Title patch_done)
    ∧ (Title patch_done = EmptyString → Title updated = Title stored_b)
    ∧ Completed updated = Completed patch_done
    ∧ UpdatedAt updated = 40
    ∧ ID updated = ID stored_b
    ∧ CreatedAt updated = CreatedAt stored_b
    ∧ todos r' !! 2 = Some updated
    ∧ (∀ k, k ≠ 2 → todos r' !! k = todos two_todos !! k)
    ∧ nextID r' = nextID two_todos.
Proof.
  split; [reflexivity|].
  apply (Update_present_fields two_todos 40 2 patch_done stored_b).
  reflexivity.
Defined.

(** Id 3 has not been issued yet in [two_todos]. *)
Lemma absent_id_not_found_witness :
  todos two_todos !! 3 = None
  ∧ FindByID 3 two_todos = ((Todo_zero, Some not_found), two_todos)
  ∧ Update 3 patch_done 40 two_todos
    = ((Todo_zero, Some not_found), two_todos)
  ∧ Delete 3 two_todos = (Some not_found, two_todos).
Proof.
  split; [reflexivity|].
  apply (absent_id_not_found two_todos 40 3 patch_done).
  reflexivity.
Defined.


(** The scenario calls [Create] three times, far from the bound. *)
Lemma reachable_store_invariant_witness :
  Z.of_nat (count_creates scenario_ops) < uint_modulus - 1
  ∧ keys_match (state_after scenario_ops)
  ∧ (∀ k todo, todos (state_after scenario_ops) !! k = Some todo →
       1 ≤ ID todo < nextID (state_after scenario_ops))
  ∧ nextID (state_after scenario_ops)
    = 1 + Z.of_nat (count_creates scenario_ops)
  ∧ 1 ≤ nextID (state_after scenario_ops)
  ∧ FindByID 0 (state_after scenario_ops)
    = ((Todo_zero, Some not_found), state_after scenario_ops).
Proof.
  split; [reflexivity|].
  apply (reachable_store_invariant scenario_ops).
  reflexivity.
Defined.

(** The three [Create] calls of the scenario are given 1, 2 and 3, the
    deletion of 1 in between notwithstanding. *)
Lemma Create_ids_strictly_increase_witness :
  Z.of_nat (count_creates scenario_ops) < uint_modulus
  ∧ created_ids (run scenario_ops NewTodoRepository).1 = [1; 2; 3].
Proof.
  split; [reflexivity|].
  apply (Create_ids_strictly_increase scenario_ops).
  reflexivity.
Defined.

(** Create "c" in [two_todos] (id 3), then run [later_updates]. *)
Lemma Update_keeps_ID_and_CreatedAt_witness :
  Forall (fun op => is_update op = true) later_updates
  ∧ let '(created, r1) := Create todo_c 30 two_todos in
    let '(ress, r2) := run later_updates r1 in
    Forall (fun updated => ID updated = ID created
                           ∧ CreatedAt updated = CreatedAt created)
      (updates_of (ID created) later_updates ress)
    ∧ length (updates_of (ID created) later_updates ress)
      = length (filter (fun op => updates_id (ID created) op = true)
                  later_updates)
    ∧ ∃ stored, todos r2 !! ID created = Some stored
        ∧ ID stored = ID created ∧ CreatedAt stored = CreatedAt created.
Proof.
  assert (H : Forall (fun op => is_update op = true) later_updates)
    by (repeat constructor).
  split; [exact H|].
  apply (Update_keeps_ID_and_CreatedAt two_todos todo_c 30 later_updates H).
Defined.

(** * Beyond the claims: the rest of the gin program *)

(** ** [FindAll] *)

Lemma foldl_range_append {A : Type} (m : gmap Z A) (order : list Z)
    (acc : list A) :
  foldl (fun todos k =>
           match m !! k with
           | Some todo => todos ++ [todo]
           | None => todos
           end) acc order
  = acc ++ omap (fun k => m !! k) order.
Proof.
  revert acc. induction order as [|k order IH]; intros acc; cbn.
  - by rewrite app_nil_r.
  - rewrite IH. destruct (m !! k) as [todo|]; [|done].
    by rewrite <- app_assoc.
Qed.

Lemma omap_lookup_keys {A : Type} (m : gmap Z A) (kvs : list (Z * A)) :
  Forall (fun kv => m !! kv.1 = Some kv.2) kvs →
  omap (fun k => m !! k) kvs.*1 = kvs.*2.
Proof.
  induction 1 as [|[k v] kvs Hkv _ IH]; [done|].
  cbn in *. by rewrite Hkv, IH.
Qed.

Lemma visit_permutation {A : Type} (m : gmap Z A) (order : list Z) :
  visits_each_key order m →
  order ≡ₚ (map_to_list m).*1
  ∧ omap (fun k => m !! k) order ≡ₚ (map_to_list m).*2.
Proof.
  intros [Hnd Hin].
  assert (Hperm : order ≡ₚ (map_to_list m).*1).
  { apply NoDup_Permutation; [done|apply NoDup_fst_map_to_list|].
    intros k. rewrite Hin, list_elem_of_fmap. split.
    - intros [v Hv]. exists (k, v). split; [done|].
      by apply elem_of_map_to_list.
    - intros ([k' v] & -> & Hkv). exists v. by apply elem_of_map_to_list. }
  split; [done|]. rewrite Hperm. rewrite omap_lookup_keys; [done|].
  apply Forall_forall. intros [k v] Hkv. by apply elem_of_map_to_list.
Qed.

Lemma FindAll_spec (order : list Z) (r : TodoRepository) :
  visits_each_key order (todos r) →
  (FindAll order r).1 ≡ₚ (map_to_list (todos r)).*2.
Proof.
  intros Hv. unfold FindAll. cbn [fst].
  rewrite foldl_range_append. cbn [app].
  by apply visit_permutation.
Qed.

Lemma elem_of_map_values {A : Type} (m : gmap Z A) (v : A) :
  v ∈ (map_to_list m).*2 ↔ ∃ k, m !! k = Some v.
Proof.
  rewrite list_elem_of_fmap. split.
  - intros ([k v'] & -> & Hkv). exists k. by apply elem_of_map_to_list.
  - intros [k Hk]. exists (k, v). split; [done|].
    by apply elem_of_map_to_list.
Qed.

(** X1.  Whatever order [range] visits the map in, [FindAll] returns every
    stored record exactly once and nothing else: its result is a
    rearrangement of the map's values, with as many entries as the map has
    keys, and a
    record is in it exactly when some key holds it.  The repository is left
    as it was. *)
Theorem FindAll_each_record_once (order : list Z) (r : TodoRepository) :
  visits_each_key order (todos r) →
  let '(found, r') := FindAll order r in
  r' = r
  ∧ found ≡ₚ (map_to_list (todos r)).*2
  ∧ length found = size (todos r)
  ∧ ∀ todo, todo ∈ found ↔ ∃ k, todos r !! k = Some todo.
Proof.
  intros Hv. pose proof (FindAll_spec order r Hv) as Hperm.
  destruct (FindAll order r) as [found r'] eqn:HF.
  assert (r' = r) as -> by (by injection HF).
  cbn [fst] in Hperm. split; [done|]. split; [done|]. split.
  - by rewrite Hperm, length_fmap, length_map_to_list.
  - intros todo. rewrite Hperm. apply elem_of_map_values.
Qed.

(** X2.  In every state a fresh repository can reach, the list [FindAll]
    returns and [FindByID] agree: a record is in the list exactly when
    looking up its id returns it, and no two records of the list have the
    same id. *)
Theorem FindAll_agrees_with_FindByID (ops : list Op) (order : list Z) :
  visits_each_key order (todos (state_after ops)) →
  let r := state_after ops in
  let found := (FindAll order r).1 in
  NoDup (ID <$> found)
  ∧ ∀ todo, todo ∈ found ↔ FindByID (ID todo) r = ((todo, None), r).
Proof.
  intros Hv. cbn zeta.
  pose proof (state_after_keys_match ops) as Hkm.
  pose proof (FindAll_spec order _ Hv) as Hperm.
  set (r := state_after ops) in *. split.
  - rewrite Hperm.
    assert (Hids : ID <$> (map_to_list (todos r)).*2 = (map_to_list (todos r)).*1).
    { rewrite <- list_fmap_compose. apply list_fmap_ext.
      intros i [k todo] Hi. cbn. apply (Hkm k todo).
      apply elem_of_map_to_list, list_elem_of_lookup. by exists i. }
    rewrite Hids. apply NoDup_fst_map_to_list.
  - intros todo. rewrite Hperm, elem_of_map_values. unfold FindByID. split.
    + intros [k Hk]. rewrite (Hkm k todo Hk), Hk. done.
    + intros Hf. exists (ID todo).
      destruct (todos r !! ID todo) as [t|]; [|done]. by injection Hf as ->.
Qed.

(** ** How the methods compose *)

(** X3.  A second [Delete] of the same id, right after the first, reports
    "todo not found" and changes nothing, whether or not the first found a
    record. *)
Theorem Delete_twice (id : Z) (r : TodoRepository) :
  Delete id (Delete id r).2 = (Some not_found, (Delete id r).2).
Proof.
  unfold Delete at 2 3. destruct (todos r !! id) as [todo|] eqn:Hid; cbn.
  - unfold Delete. cbn. by rewrite lookup_delete_eq.
  - unfold Delete. by rewrite Hid.
Qed.

(** X4.  [FindByID] right after [Update] on the same id returns what
    [Update] returned: the updated record when there was one, the same
    error and zero record when there was none. *)
Theorem Update_then_FindByID (id : Z) (todo : Todo) (now : Time)
    (r : TodoRepository) :
  FindByID id (Update id todo now r).2 = Update id todo now r.
Proof.
  unfold Update. destruct (todos r !! id) as [existing|] eqn:Hid; cbn.
  - unfold FindByID. cbn. by rewrite lookup_insert_eq.
  - unfold FindByID. by rewrite Hid.
Qed.

Lemma Update_found (id : Z) (todo existing : Todo) (now : Time)
    (r : TodoRepository) :
  todos r !! id = Some existing →
  Update id todo now r
  = (({| ID := ID existing;
         Title := if bool_decide (Title todo ≠ EmptyString)
                  then Title todo else Title existing;
         Completed := Completed todo;
         CreatedAt := CreatedAt existing;
         UpdatedAt := now |}, None),
     {| todos := <[id := {| ID := ID existing;
                           Title := if bool_decide (Title todo ≠ EmptyString)
                                    then Title todo else Title existing;
                           Completed := Completed todo;
                           CreatedAt := CreatedAt existing;
                           UpdatedAt := now |}]> (todos r);
        nextID := nextID r |}).
Proof. intros Hid. unfold Update. by rewrite Hid. Qed.

(** X19.  The last [Update] wins.  An [Update] that follows another
    [Update] of the same id returns the same record and error, and leaves
    the same repository, as if the earlier one had not been made, when it
    carries a title or when the two carry the same input; in particular
    repeating an [Update] changes nothing but [UpdatedAt]. *)
Theorem Update_overrides_Update (id : Z) (todo1 todo2 : Todo)
    (now1 now2 : Time) (r : TodoRepository) :
  (Title todo2 ≠ EmptyString →
     Update id todo2 now2 (Update id todo1 now1 r).2 = Update id todo2 now2 r)
  ∧ Update id todo1 now2 (Update id todo1 now1 r).2 = Update id todo1 now2 r.
Proof.
  destruct (todos r !! id) as [existing|] eqn:Hid.
  - rewrite !(Update_found id _ existing _ r Hid). cbn [snd].
    split.
    + intros Hne. erewrite Update_found by apply lookup_insert_eq.
      cbn. rewrite insert_insert_eq. by rewrite !(bool_decide_eq_true_2 _ Hne).
    + erewrite Update_found by apply lookup_insert_eq.
      cbn. rewrite insert_insert_eq. by case_bool_decide.
  - assert (HU : ∀ todo now, Update id todo now r
                             = ((Todo_zero, Some not_found), r)).
    { intros todo now. unfold Update. by rewrite Hid. }
    by rewrite !HU.
Qed.


(** X6.  Creating a todo and deleting it again gives the map back as it
    was, but not the counter: the id is spent. *)
Theorem Create_then_Delete (todo : Todo) (now : Time) (r : TodoRepository) :
  todos r !! nextID r = None →
  let '(created, r1) := Create todo now r in
  Delete (ID created) r1
  = (None, {| todos := todos r; nextID := uint_wrap (nextID r + 1) |}).
Proof.
  intros Hfree. cbn. unfold Delete. cbn. rewrite lookup_insert_eq.
  by rewrite delete_insert_id.
Qed.

(** ** Counting records *)

Lemma count_deleted_cons (res : Result) (ress : list Result) :
  count_deleted (res :: ress)
  = if deleted res then S (count_deleted ress) else count_deleted ress.
Proof.
  unfold count_deleted. rewrite filter_cons.
  destruct (deleted res); by case_decide.
Qed.

Lemma step_size (op : Op) (r : TodoRepository) :
  keys_issued r →
  (size (todos (step op r).2) + (if deleted (step op r).1 then 1 else 0)
   = size (todos r) + (if is_create op then 1 else 0))%nat.
Proof.
  intros Hr. destruct op as [todo now|id|id todo now|id]; cbn.
  - rewrite map_size_insert_None; [lia|].
    destruct (todos r !! nextID r) as [t|] eqn:Hn; [|done].
    specialize (Hr _ _ Hn). lia.
  - unfold FindByID. destruct (todos r !! id); cbn; lia.
  - unfold Update. destruct (todos r !! id) as [t|] eqn:Hid; cbn; [|lia].
    rewrite map_size_insert_Some; [lia|by rewrite Hid].
  - unfold Delete. destruct (todos r !! id) as [t|] eqn:Hid; cbn; [|lia].
    rewrite <- (insert_delete_id (todos r) id t Hid) at 2.
    rewrite map_size_insert_None by apply lookup_delete_eq. lia.
Qed.

Lemma run_size (ops : list Op) (r : TodoRepository) :
  keys_issued r → 1 ≤ nextID r →
  nextID r + Z.of_nat (count_creates ops) < uint_modulus →
  (size (todos (run ops r).2) + count_deleted (run ops r).1
   = size (todos r) + count_creates ops)%nat.
Proof.
  revert r. induction ops as [|op ops IH]; intros r Hr H1 Hlt.
  - cbn. unfold count_deleted, count_creates. cbn. lia.
  - rewrite run_cons. cbn [fst snd].
    rewrite count_deleted_cons, count_creates_cons in *.
    pose proof (step_size op r Hr) as Hs.
    destruct (step_keys_issued op r Hr H1) as [Hki Hn].
    { destruct (is_create op); lia. }
    specialize (IH (step op r).2 Hki).
    rewrite Hn in IH.
    destruct (is_create op), (deleted (step op r).1); lia.
Qed.

(** X7.  Records are neither lost nor duplicated.  After any run on a
    fresh repository (with fewer than [2^64 - 1] calls of [Create]), the
    number of records in the map is the number of [Create] calls minus the
    number of [Delete] calls that found their record. *)
Theorem records_are_accounted_for (ops : list Op) :
  Z.of_nat (count_creates ops) < uint_modulus - 1 →
  (size (todos (state_after ops))
   + count_deleted (run ops NewTodoRepository).1
   = count_creates ops)%nat.
Proof.
  intros Hlt.
  pose proof (run_size ops NewTodoRepository NewTodoRepository_keys_issued)
    as H.
  cbn [nextID NewTodoRepository todos] in H.
  rewrite map_size_empty in H. apply H; lia.
Qed.

(** ** Timestamps *)

Lemma step_stamps_ordered (op : Op) (lo : Time) (r : TodoRepository) :
  stamps_ordered lo r →
  (∀ now, clock_of op = Some now → lo ≤ now) →
  stamps_ordered (default lo (clock_of op)) (step op r).2.
Proof.
  intros Hr Hclk. destruct op as [todo now|id|id todo now|id]; cbn.
  - specialize (Hclk now eq_refl). intros k t. cbn.
    rewrite lookup_insert. case_decide.
    + intros [= <-]. cbn. lia.
    + intros Hk. specialize (Hr k t Hk). lia.
  - unfold FindByID. by destruct (todos r !! id).
  - specialize (Hclk now eq_refl). unfold Update.
    destruct (todos r !! id) as [existing|] eqn:Hid; cbn.
    + intros k t. cbn. rewrite lookup_insert. case_decide.
      * intros [= <-]. cbn. specialize (Hr id existing Hid). lia.
      * intros Hk. specialize (Hr k t Hk). lia.
    + intros k t Hk. specialize (Hr k t Hk). lia.
  - unfold Delete. destruct (todos r !! id) as [existing|] eqn:Hid; [|done].
    intros k t. cbn. rewrite lookup_delete_Some. intros [_ Hk].
    by apply (Hr k t).
Qed.

Lemma run_stamps_ordered (ops : list Op) (lo : Time) (r : TodoRepository) :
  stamps_ordered lo r →
  StronglySorted Z.le (lo :: clock_readings ops) →
  ∃ lo', stamps_ordered lo' (run ops r).2.
Proof.
  revert lo r. induction ops as [|op ops IH]; intros lo r Hr Hs.
  - by exists lo.
  - rewrite run_cons. cbn [snd].
    apply (IH (default lo (clock_of op))).
    + apply step_stamps_ordered; [done|].
      intros now Hop. unfold clock_readings in Hs. cbn in Hs.
      rewrite Hop in Hs. apply StronglySorted_inv in Hs as [_ Hall].
      by apply Forall_cons in Hall as [Hle _].
    + unfold clock_readings in *. cbn in Hs.
      destruct (clock_of op) as [now|]; cbn; [|done].
      by apply StronglySorted_inv in Hs as [Hs _].
Qed.

(** X8.  If the clock never runs backwards from one call to the next,
    then in every state a fresh repository reaches no stored record has an
    [UpdatedAt] before its [CreatedAt]. *)
Theorem UpdatedAt_not_before_CreatedAt (ops : list Op) :
  StronglySorted Z.le (clock_readings ops) →
  ∀ k todo, todos (state_after ops) !! k = Some todo →
    CreatedAt todo ≤ UpdatedAt todo.
Proof.
  intros Hs k todo Hk.
  destruct (run_stamps_ordered ops (hd 0 (clock_readings ops))
              NewTodoRepository) as [lo Hlo].
  - intros k' t. cbn. by rewrite lookup_empty.
  - destruct (clock_readings ops) as [|now nows]; cbn.
    + repeat constructor.
    + constructor; [done|]. constructor; [lia|].
      by apply StronglySorted_inv in Hs as [_ Hall].
  - by apply (Hlo k todo).
Qed.

(** * The gin handlers *)

Lemma serve_cons (req : Request) (reqs : list Request) (repo : TodoRepository) :
  serve (req :: reqs) repo
  = ((ServeHTTP req repo).1 :: (serve reqs (ServeHTTP req repo).2).1,
     (serve reqs (ServeHTTP req repo).2).2).
Proof.
  cbn. destruct (ServeHTTP req repo) as [w repo1]. cbn.
  by destruct (serve reqs repo1) as [ws repo2].
Qed.

(** X9.  A request that is answered with an error status (400 or 404)
    leaves the repository exactly as it was, whichever handler served it;
    so does every GET.  Only a 201, a 200 to a PUT and a 204 go with a
    change. *)
Theorem error_replies_change_nothing (req : Request) (repo : TodoRepository) :
  let '(w, repo') := ServeHTTP req repo in
  (400 ≤ status w → repo' = repo)
  ∧ (repo' ≠ repo →
       match req with
       | POST_todos _ _ => status w = 201
       | PUT_todo _ _ _ => status w = 200
       | DELETE_todo _ => status w = 204
       | _ => False
       end).
Proof.
  destruct req as [order|body now|id|id body now|id]; cbn.
  - done.
  - unfold CreateTodo, ShouldBindJSON.
    destruct body as [msg|todo]; cbn; [done|].
    case_bool_decide; cbn; [done|]. split; [|done].
    unfold StatusCreated. lia.
  - unfold GetTodo, FindByID. destruct id as [id|]; cbn; [|done].
    by destruct (todos repo !! id).
  - unfold UpdateTodo, ShouldBindJSON, Update.
    destruct id as [id|]; cbn; [|done].
    destruct body as [msg|todo]; cbn; [done|].
    case_bool_decide; cbn; [done|].
    destruct (todos repo !! id); cbn; [|done]. split; [|done].
    unfold StatusOK. lia.
  - unfold DeleteTodo, Delete. destruct id as [id|]; cbn; [|done].
    destruct (todos repo !! id); cbn; [|done]. split; [|done].
    unfold StatusNoContent. lia.
Qed.

Lemma ServeHTTP_call (req : Request) (repo : TodoRepository) :
  (ServeHTTP req repo).2
  = match call_of req with
    | Some op => (step op repo).2
    | None => repo
    end.
Proof.
  destruct req as [order|body now|id|id body now|id]; cbn.
  - done.
  - unfold CreateTodo. by destruct (ShouldBindJSON body) as [todo [err|]].
  - unfold GetTodo. destruct id as [id|]; [|done]. cbn.
    unfold FindByID. by destruct (todos repo !! id).
  - unfold UpdateTodo. destruct id as [id|]; [|done].
    destruct (ShouldBindJSON body) as [todo [err|]]; [done|]. cbn.
    unfold Update. by destruct (todos repo !! id).
  - unfold DeleteTodo. destruct id as [id|]; [|done]. cbn.
    unfold Delete. by destruct (todos repo !! id).
Qed.

(** X10.  The handlers add nothing of their own to the state: serving a
    sequence of requests leaves the repository in the state that the
    repository calls of those requests, made in the same order, leave it
    in.  So every state reachable over HTTP is one a fresh repository
    reaches by method calls, and in it every record sits under its own
    id. *)
Theorem serve_is_run_of_calls (reqs : list Request) :
  (∀ repo, (serve reqs repo).2 = (run (omap call_of reqs) repo).2)
  ∧ (serve reqs NewTodoRepository).2 = state_after (omap call_of reqs)
  ∧ keys_match (serve reqs NewTodoRepository).2.
Proof.
  assert (H : ∀ repo, (serve reqs repo).2 = (run (omap call_of reqs) repo).2).
  { induction reqs as [|req reqs IH]; intros repo; [done|].
    rewrite serve_cons. cbn [snd]. rewrite IH, ServeHTTP_call.
    change (omap call_of (req :: reqs))
      with (match call_of req with
            | Some op => op :: omap call_of reqs
            | None => omap call_of reqs
            end).
    destruct (call_of req) as [op|]; [|done]. by rewrite run_cons. }
  split; [done|]. split; [apply H|].
  rewrite H. apply state_after_keys_match.
Qed.

Lemma ServeHTTP_titles_present (req : Request) (repo : TodoRepository) :
  titles_present repo → titles_present (ServeHTTP req repo).2.
Proof.
  intros Hr. rewrite ServeHTTP_call.
  destruct req as [order|body now|[id|]|[id|] body now|[id|]]; cbn;
    try done.
  - unfold ShouldBindJSON. destruct body as [msg|todo]; [done|].
    case_bool_decide as Ht; [done|]. intros k t. cbn.
    rewrite lookup_insert. case_decide; [by intros [= <-]|apply Hr].
  - unfold FindByID. by destruct (todos repo !! id).
  - unfold ShouldBindJSON. destruct body as [msg|todo]; [done|].
    case_bool_decide as Ht; [done|]. cbn. unfold Update.
    destruct (todos repo !! id) as [existing|] eqn:Hid; [|done].
    intros k t. cbn. rewrite lookup_insert. case_decide; [|apply Hr].
    intros [= <-]. cbn. by rewrite bool_decide_eq_true_2.
  - unfold Delete. destruct (todos repo !! id) as [existing|]; [|done].
    intros k t. cbn. rewrite lookup_delete_Some. intros [_ Hk].
    by apply (Hr k t).
Qed.

(** X11.  Over HTTP no todo without a title gets into the store: after
    any sequence of requests to a fresh repository, every stored record has
    a non-empty title. *)
Theorem served_titles_never_empty (reqs : list Request) :
  titles_present (serve reqs NewTodoRepository).2.
Proof.
  assert (H : ∀ repo, titles_present repo → titles_present (serve reqs repo).2).
  { induction reqs as [|req reqs IH]; intros repo Hr; [done|].
    rewrite serve_cons. cbn [snd]. by apply IH, ServeHTTP_titles_present. }
  apply H. intros k t. cbn. by rewrite lookup_empty.
Qed.

(** X12.  The PUT handler binds its body with the same [required] tag as
    POST.  A body without a title is answered 400 and changes nothing, also
    when the id exists; so whenever PUT answers with a record, the record's
    title and completed flag are the ones of the body, its [UpdatedAt] is
    the clock reading, and it is the record now stored under that id.  The
    "keep the stored title" branch of [Update] is never taken over HTTP. *)
Theorem PUT_requires_title (id : option Z) (body : Body) (now : Time)
    (repo : TodoRepository) :
  (∀ k todo, Title todo = EmptyString →
     UpdateTodo (Some k) (Decoded todo) now repo
     = (JSON_error StatusBadRequest required_Title, repo))
  ∧ ∀ code updated repo',
      UpdateTodo id body now repo = (JSON_Todo code updated, repo') →
      ∃ k todo, id = Some k ∧ body = Decoded todo ∧ code = 200
        ∧ Title todo ≠ EmptyString
        ∧ Title updated = Title todo
        ∧ Completed updated = Completed todo
        ∧ UpdatedAt updated = now
        ∧ todos repo' !! k = Some updated.
Proof.
  split.
  - intros k todo Hempty. unfold UpdateTodo, ShouldBindJSON.
    by rewrite bool_decide_eq_true_2.
  - intros code updated repo'. unfold UpdateTodo, ShouldBindJSON.
    destruct id as [k|]; [|done].
    destruct body as [msg|todo]; [done|].
    case_bool_decide as Ht; [done|]. cbn. unfold Update.
    destruct (todos repo !! k) as [existing|] eqn:Hk; [|done].
    intros [= <- <- <-]. exists k, todo. cbn.
    rewrite lookup_insert_eq, bool_decide_eq_true_2 by done. done.
Qed.

(** * The mux program *)

Lemma Mux_serve_cons (req : Mux.Request) (reqs : list Mux.Request)
    (h : Mux.TodoHandler) :
  Mux.serve (req :: reqs) h
  = ((Mux.ServeHTTP req h).1 :: (Mux.serve reqs (Mux.ServeHTTP req h).2).1,
     (Mux.serve reqs (Mux.ServeHTTP req h).2).2).
Proof.
  cbn. destruct (Mux.ServeHTTP req h) as [resp h1]. cbn.
  by destruct (Mux.serve reqs h1) as [resps h2].
Qed.

(** X13.  In the mux program too, a request answered with an error status
    leaves the handler's map and counter as they were, and so does every
    GET; a change goes with a 201 to POST, a 200 to PUT or a 204 to
    DELETE. *)
Theorem Mux_error_replies_change_nothing (req : Mux.Request)
    (h : Mux.TodoHandler) :
  let '(resp, h') := Mux.ServeHTTP req h in
  (400 ≤ Mux.status resp → h' = h)
  ∧ (h' ≠ h →
       match req with
       | Mux.POST_todos _ _ => Mux.status resp = 201
       | Mux.PUT_todo _ _ => Mux.status resp = 200
       | Mux.DELETE_todo _ => Mux.status resp = 204
       | _ => False
       end).
Proof.
  destruct req as [order|body now|id|id body|id]; cbn.
  - done.
  - destruct body as [msg|todo]; cbn; [done|]. split; [|done].
    unfold Mux.StatusCreated. lia.
  - unfold Mux.GetTodo. destruct id as [id|]; [|done].
    by destruct (Mux.todos h !! id).
  - unfold Mux.UpdateTodo. destruct id as [id|]; [|done].
    destruct (Mux.todos h !! id); [|done].
    destruct body as [msg|todo]; cbn; [done|]. split; [|done].
    unfold Mux.StatusOK. lia.
  - unfold Mux.DeleteTodo. destruct id as [id|]; [|done].
    destruct (Mux.todos h !! id); cbn; [|done]. split; [|done].
    unfold Mux.StatusNoContent. lia.
Qed.

Lemma int_wrap_small (x : Z) : - int_max - 1 ≤ x ≤ int_max → int_wrap x = x.
Proof.
  unfold int_wrap, int_max.
  change (uint_modulus / 2) with 9223372036854775808.
  change uint_modulus with 18446744073709551616.
  intros Hx. rewrite Z.mod_small; lia.
Qed.

Lemma int_max_pos : 1 < int_max.
Proof. done. Qed.

Lemma Mux_count_creates_cons (req : Mux.Request) (reqs : list Mux.Request) :
  Mux_count_creates (req :: reqs)
  = if Mux_creates req then S (Mux_count_creates reqs)
    else Mux_count_creates reqs.
Proof.
  unfold Mux_count_creates. rewrite filter_cons.
  destruct (Mux_creates req); by case_decide.
Qed.

Lemma Mux_ServeHTTP_store_ok (req : Mux.Request) (h : Mux.TodoHandler) :
  Mux_store_ok h → 1 ≤ Mux.nextID h →
  Mux.nextID h + (if Mux_creates req then 1 else 0) ≤ int_max →
  Mux_store_ok (Mux.ServeHTTP req h).2
  ∧ Mux.nextID (Mux.ServeHTTP req h).2
    = Mux.nextID h + (if Mux_creates req then 1 else 0)
  ∧ Mux_created_ids ((Mux.ServeHTTP req h).1 :: [])
    = if Mux_creates req then [Mux.nextID h] else [].
Proof.
  intros Hh H1 Hlt. pose proof int_max_pos as Hmax.
  destruct req as [order|body now|id|id body|id]; cbn in *.
  - rewrite Z.add_0_r. done.
  - destruct body as [msg|todo]; cbn in *; [by rewrite Z.add_0_r|].
    rewrite int_wrap_small by lia. split; [|done].
    intros k t. cbn. rewrite lookup_insert. case_decide as Hk.
    + intros [= <-]. cbn. lia.
    + intros Hkt. specialize (Hh k t Hkt). lia.
  - rewrite Z.add_0_r. unfold Mux.GetTodo. destruct id as [id|]; [|done].
    by destruct (Mux.todos h !! id).
  - rewrite Z.add_0_r. unfold Mux.UpdateTodo. destruct id as [id|]; [|done].
    destruct (Mux.todos h !! id) as [existing|] eqn:Hid; [|done].
    destruct body as [msg|todo]; [done|]. cbn. split; [|done].
    intros k t. cbn. rewrite lookup_insert. case_decide as Hk.
    + intros [= <-]. cbn. subst k. apply (Hh id existing Hid).
    + apply Hh.
  - rewrite Z.add_0_r. unfold Mux.DeleteTodo. destruct id as [id|]; [|done].
    destruct (Mux.todos h !! id) as [existing|] eqn:Hid; [|done].
    cbn. split; [|done].
    intros k t. cbn. rewrite lookup_delete_Some. intros [_ Hk].
    by apply (Hh k t).
Qed.

Lemma Mux_created_ids_cons (resp : Mux.Response) (resps : list Mux.Response) :
  Mux_created_ids (resp :: resps)
  = Mux_created_ids [resp] ++ Mux_created_ids resps.
Proof.
  destruct resp as [msg code|code todo|code todos|code]; cbn; try done.
  by case_bool_decide.
Qed.

Lemma Mux_serve_store_ok (reqs : list Mux.Request) (h : Mux.TodoHandler) :
  Mux_store_ok h → 1 ≤ Mux.nextID h →
  Mux.nextID h + Z.of_nat (Mux_count_creates reqs) ≤ int_max →
  Mux_store_ok (Mux.serve reqs h).2
  ∧ Mux.nextID (Mux.serve reqs h).2
    = Mux.nextID h + Z.of_nat (Mux_count_creates reqs)
  ∧ Mux_created_ids (Mux.serve reqs h).1
    = seqZ (Mux.nextID h) (Z.of_nat (Mux_count_creates reqs)).
Proof.
  revert h. induction reqs as [|req reqs IH]; intros h Hh H1 Hlt.
  - cbn. split; [done|]. split; [lia|done].
  - rewrite Mux_serve_cons. cbn [fst snd].
    rewrite Mux_count_creates_cons in *.
    destruct (Mux_ServeHTTP_store_ok req h Hh H1) as (Hs & Hn & Hids).
    { destruct (Mux_creates req); lia. }
    destruct (IH (Mux.ServeHTTP req h).2 Hs) as (IH1 & IH2 & IH3).
    { rewrite Hn. destruct (Mux_creates req); lia. }
    { rewrite Hn. destruct (Mux_creates req); lia. }
    split; [done|]. rewrite Mux_created_ids_cons, Hids, IH2, IH3, Hn.
    destruct (Mux_creates req).
    + split; [lia|]. rewrite (seqZ_cons (Mux.nextID h)) by lia.
      cbn [app]. do 2 f_equal; lia.
    + split; [lia|]. cbn [app]. do 2 f_equal; lia.
Qed.

(** X14.  The mux handler keeps its map in order.  After any sequence of
    requests to a fresh handler that creates fewer than [2^63 - 1] todos,
    every record sits under its own id, every id in use is at least 1 and
    below the counter, and the counter is one more than the number of
    todos created. *)
Theorem Mux_store_invariant (reqs : list Mux.Request) :
  Z.of_nat (Mux_count_creates reqs) < int_max →
  let h := (Mux.serve reqs Mux.NewTodoHandler).2 in
  Mux_store_ok h
  ∧ Mux.nextID h = 1 + Z.of_nat (Mux_count_creates reqs).
Proof.
  intros Hlt. cbn zeta.
  destruct (Mux_serve_store_ok reqs Mux.NewTodoHandler) as (H1 & H2 & _).
  - intros k t. cbn. by rewrite lookup_empty.
  - done.
  - cbn. lia.
  - done.
Qed.

(** X15.  The mux handler numbers the todos it creates 1, 2, 3, ... in
    the order of the 201 responses, whatever other requests come in
    between and whatever ids the bodies carry (for fewer than [2^63 - 1]
    creations); so no id is given twice. *)
Theorem Mux_ids_sequential (reqs : list Mux.Request) :
  Z.of_nat (Mux_count_creates reqs) < int_max →
  let ids := Mux_created_ids (Mux.serve reqs Mux.NewTodoHandler).1 in
  ids = seqZ 1 (Z.of_nat (Mux_count_creates reqs))
  ∧ NoDup ids.
Proof.
  intros Hlt. cbn zeta.
  destruct (Mux_serve_store_ok reqs Mux.NewTodoHandler) as (_ & _ & ->).
  - intros k t. cbn. by rewrite lookup_empty.
  - done.
  - cbn. lia.
  - split; [done|]. apply NoDup_seqZ.
Qed.

(** * A record between its creation and its deletion *)

Lemma count_creates_app (ops1 ops2 : list Op) :
  count_creates (ops1 ++ ops2) = (count_creates ops1 + count_creates ops2)%nat.
Proof. unfold count_creates. by rewrite filter_app, length_app. Qed.

Lemma step_keeps_record (op : Op) (r : TodoRepository) (id : Z) (todo : Todo) :
  keys_issued r → deletes_id id op = false →
  todos r !! id = Some todo →
  ∃ stored, todos (step op r).2 !! id = Some stored
    ∧ ID stored = ID todo ∧ CreatedAt stored = CreatedAt todo.
Proof.
  intros Hr Hop Hid. destruct op as [t now|k|k t now|k]; cbn in *.
  - exists todo. split; [|done]. rewrite lookup_insert_ne; [done|].
    specialize (Hr id todo Hid). lia.
  - unfold FindByID. exists todo. by destruct (todos r !! k).
  - unfold Update. destruct (decide (k = id)) as [->|Hne].
    + rewrite Hid. cbn. rewrite lookup_insert_eq. by eexists.
    + exists todo. destruct (todos r !! k); cbn; [|done].
      by rewrite lookup_insert_ne.
  - unfold Delete. apply bool_decide_eq_false in Hop. exists todo.
    destruct (todos r !! k); cbn; [|done]. by rewrite lookup_delete_ne.
Qed.

Lemma run_keeps_record (ops : list Op) (r : TodoRepository) (id : Z)
    (todo : Todo) :
  keys_issued r → 1 ≤ nextID r →
  nextID r + Z.of_nat (count_creates ops) < uint_modulus →
  Forall (fun op => deletes_id id op = false) ops →
  todos r !! id = Some todo →
  ∃ stored, todos (run ops r).2 !! id = Some stored
    ∧ ID stored = ID todo ∧ CreatedAt stored = CreatedAt todo.
Proof.
  intros Hr H1 Hlt Hops. revert r todo Hr H1 Hlt.
  induction Hops as [|op ops Hop _ IH]; intros r todo Hr H1 Hlt Hid.
  - by exists todo.
  - rewrite run_cons. cbn [snd]. rewrite count_creates_cons in Hlt.
    destruct (step_keeps_record op r id todo Hr Hop Hid)
      as (stored & Hst & HID & HCA).
    destruct (step_keys_issued op r Hr H1) as [Hki Hn].
    { destruct (is_create op); lia. }
    destruct (IH (step op r).2 stored Hki) as (stored' & Hst' & HID' & HCA').
    { rewrite Hn. destruct (is_create op); lia. }
    { rewrite Hn. destruct (is_create op); lia. }
    { done. }
    exists stored'. split; [done|]. split; congruence.
Qed.

(** X16.  Between its creation and its deletion a todo keeps its id and
    its [CreatedAt], whatever else happens.  If a record is stored under
    [id] after [ops1], and [ops2] contains no [Delete] of [id], then after
    [ops1 ++ ops2] a record is still stored under [id], with the same id
    field and [CreatedAt] (in runs with fewer than [2^64 - 1] calls of
    [Create]). *)
Theorem record_lives_until_deleted (ops1 ops2 : list Op) (id : Z)
    (todo : Todo) :
  Z.of_nat (count_creates (ops1 ++ ops2)) < uint_modulus - 1 →
  Forall (fun op => deletes_id id op = false) ops2 →
  todos (state_after ops1) !! id = Some todo →
  ∃ stored, todos (state_after (ops1 ++ ops2)) !! id = Some stored
    ∧ ID stored = ID todo ∧ CreatedAt stored = CreatedAt todo.
Proof.
  intros Hlt Hops Hid. rewrite count_creates_app in Hlt.
  unfold state_after in *. rewrite run_app. cbn [snd].
  destruct (run_keys_issued ops1 NewTodoRepository) as [Hki Hn];
    [apply NewTodoRepository_keys_issued|done|cbn; lia|].
  cbn [nextID NewTodoRepository] in Hn.
  apply run_keeps_record; [done|lia| |done|done].
  rewrite Hn. lia.
Qed.

Lemma Mux_count_creates_app (reqs1 reqs2 : list Mux.Request) :
  Mux_count_creates (reqs1 ++ reqs2)
  = (Mux_count_creates reqs1 + Mux_count_creates reqs2)%nat.
Proof. unfold Mux_count_creates. by rewrite filter_app, length_app. Qed.

Lemma Mux_serve_app (reqs1 reqs2 : list Mux.Request) (h : Mux.TodoHandler) :
  (Mux.serve (reqs1 ++ reqs2) h).2
  = (Mux.serve reqs2 (Mux.serve reqs1 h).2).2.
Proof.
  revert h. induction reqs1 as [|req reqs1 IH]; intros h; [done|].
  rewrite <- app_comm_cons, !Mux_serve_cons. cbn [snd]. apply IH.
Qed.

Lemma Mux_ServeHTTP_keeps_record (req : Mux.Request) (h : Mux.TodoHandler)
    (id : Z) (todo : Mux.Todo) :
  Mux_store_ok h → Mux_deletes_id id req = false →
  Mux.todos h !! id = Some todo →
  ∃ stored, Mux.todos (Mux.ServeHTTP req h).2 !! id = Some stored
    ∧ Mux.ID stored = Mux.ID todo
    ∧ Mux.CreatedAt stored = Mux.CreatedAt todo.
Proof.
  intros Hh Hreq Hid.
  destruct req as [order|body now|k|k body|k]; cbn in *.
  - by exists todo.
  - destruct body as [msg|t]; cbn; [by exists todo|].
    exists todo. split; [|done]. rewrite lookup_insert_ne; [done|].
    specialize (Hh id todo Hid). lia.
  - unfold Mux.GetTodo. exists todo. destruct k as [k|]; [|done].
    by destruct (Mux.todos h !! k).
  - unfold Mux.UpdateTodo. destruct k as [k|]; [|by exists todo].
    destruct (decide (k = id)) as [->|Hne].
    + rewrite Hid. destruct body as [msg|t]; cbn; [by exists todo|].
      rewrite lookup_insert_eq. by eexists.
    + exists todo. destruct (Mux.todos h !! k) as [other|]; [|done].
      destruct body as [msg|t]; cbn; [done|]. by rewrite lookup_insert_ne.
  - unfold Mux.DeleteTodo. exists todo. destruct k as [k|]; [|done].
    apply bool_decide_eq_false in Hreq.
    destruct (Mux.todos h !! k); cbn; [|done]. by rewrite lookup_delete_ne.
Qed.

Lemma Mux_serve_keeps_record (reqs : list Mux.Request) (h : Mux.TodoHandler)
    (id : Z) (todo : Mux.Todo) :
  Mux_store_ok h → 1 ≤ Mux.nextID h →
  Mux.nextID h + Z.of_nat (Mux_count_creates reqs) ≤ int_max →
  Forall (fun req => Mux_deletes_id id req = false) reqs →
  Mux.todos h !! id = Some todo →
  ∃ stored, Mux.todos (Mux.serve reqs h).2 !! id = Some stored
    ∧ Mux.ID stored = Mux.ID todo
    ∧ Mux.CreatedAt stored = Mux.CreatedAt todo.
Proof.
  intros Hh H1 Hlt Hreqs. revert h todo Hh H1 Hlt.
  induction Hreqs as [|req reqs Hreq _ IH]; intros h todo Hh H1 Hlt Hid.
  - by exists todo.
  - rewrite Mux_serve_cons. cbn [snd]. rewrite Mux_count_creates_cons in Hlt.
    destruct (Mux_ServeHTTP_keeps_record req h id todo Hh Hreq Hid)
      as (stored & Hst & HID & HCA).
    destruct (Mux_ServeHTTP_store_ok req h Hh H1) as (Hs & Hn & _).
    { destruct (Mux_creates req); lia. }
    destruct (IH (Mux.ServeHTTP req h).2 stored Hs) as (stored' & Hst' & HID' & HCA').
    { rewrite Hn. destruct (Mux_creates req); lia. }
    { rewrite Hn. destruct (Mux_creates req); lia. }
    { done. }
    exists stored'. split; [done|]. split; congruence.
Qed.

(** X17.  The same for the mux program, over HTTP: a todo stored under
    [id] after the requests [reqs1] is still stored under [id], with the
    same id field and [CreatedAt], after any further requests [reqs2] that
    do not DELETE [id] (while fewer than [2^63 - 1] todos are created).
    PUT bodies that carry an id or a creation time do not change that. *)
Theorem Mux_record_lives_until_deleted (reqs1 reqs2 : list Mux.Request)
    (id : Z) (todo : Mux.Todo) :
  Z.of_nat (Mux_count_creates (reqs1 ++ reqs2)) < int_max →
  Forall (fun req => Mux_deletes_id id req = false) reqs2 →
  Mux.todos (Mux.serve reqs1 Mux.NewTodoHandler).2 !! id = Some todo →
  ∃ stored,
    Mux.todos (Mux.serve (reqs1 ++ reqs2) Mux.NewTodoHandler).2 !! id
    = Some stored
    ∧ Mux.ID stored = Mux.ID todo
    ∧ Mux.CreatedAt stored = Mux.CreatedAt todo.
Proof.
  intros Hlt Hreqs Hid. rewrite Mux_count_creates_app in Hlt.
  rewrite Mux_serve_app.
  destruct (Mux_serve_store_ok reqs1 Mux.NewTodoHandler) as (Hs & Hn & _).
  { intros k t. cbn. by rewrite lookup_empty. }
  { done. }
  { cbn. lia. }
  cbn [Mux.nextID Mux.NewTodoHandler] in Hn.
  apply Mux_serve_keeps_record; [done|lia| |done|done].
  rewrite Hn. lia.
Qed.

(** X18.  [ListTodos] answers 200 with every stored todo exactly once,
    whatever order [range] visits the map in, and changes nothing. *)
Theorem Mux_ListTodos_each_record_once (order : list Z) (h : Mux.TodoHandler) :
  visits_each_key order (Mux.todos h) →
  ∃ listed,
    Mux.ListTodos order h = (Mux.Encode_list 200 listed, h)
    ∧ listed ≡ₚ (map_to_list (Mux.todos h)).*2
    ∧ length listed = size (Mux.todos h)
    ∧ ∀ todo, todo ∈ listed ↔ ∃ k, Mux.todos h !! k = Some todo.
Proof.
  intros Hv. exists (Mux.range_append order (Mux.todos h)).
  split; [done|].
  assert (Hperm : Mux.range_append order (Mux.todos h)
                  ≡ₚ (map_to_list (Mux.todos h)).*2).
  { unfold Mux.range_append. rewrite foldl_range_append. cbn [app].
    by apply visit_permutation. }
  split; [done|]. split.
  - by rewrite Hperm, length_fmap, length_map_to_list.
  - intros todo. rewrite Hperm. apply elem_of_map_values.
Qed.

(** * The theorems above at work *)

(** A list without repetition whose elements are the keys of a map is a
    visit of the map. *)
Lemma visits_by_dom {A : Type} (order : list Z) (m : gmap Z A) :
  NoDup order → dom m = list_to_set order → visits_each_key order m.
Proof.
  intros Hnd Hdom. split; [done|].
  intros k. by rewrite <- elem_of_dom, Hdom, elem_of_list_to_set.
Qed.

Lemma two_todos_visit : visits_each_key [2; 1] (todos two_todos).
Proof.
  apply visits_by_dom; [|by vm_compute].
  apply (bool_decide_unpack _). by vm_compute.
Qed.

Lemma Mux_scenario_visit :
  visits_each_key [3; 2]
    (Mux.todos (Mux.serve Mux_scenario Mux.NewTodoHandler).2).
Proof.
  apply visits_by_dom; [|by vm_compute].
  apply (bool_decide_unpack _). by vm_compute.
Qed.

Example Mux_scenario_responses :
  (Mux.serve (Mux_scenario ++ Mux_later) Mux.NewTodoHandler).1
  = [Mux.Encode 201 {| Mux.ID := 1; Mux.Title := "a";
                       Mux.Completed := false; Mux.CreatedAt := 10 |};
     Mux.Encode 201 {| Mux.ID := 2; Mux.Title := "b";
                       Mux.Completed := false; Mux.CreatedAt := 20 |};
     Mux.WriteHeader 204;
     Mux.http_Error "Todoが見つかりません" 404;
     Mux.Encode 201 {| Mux.ID := 3; Mux.Title := "c";
                       Mux.Completed := false; Mux.CreatedAt := 30 |};
     Mux.Encode 200 {| Mux.ID := 2; Mux.Title := EmptyString;
                       Mux.Completed := true; Mux.CreatedAt := 20 |};
     Mux.WriteHeader 204;
     Mux.Encode 201 {| Mux.ID := 4; Mux.Title := "d";
                       Mux.Completed := false; Mux.CreatedAt := 50 |};
     Mux.Encode_list 200
       [{| Mux.ID := 2; Mux.Title := EmptyString;
           Mux.Completed := true; Mux.CreatedAt := 20 |};
        {| Mux.ID := 4; Mux.Title := "d";
           Mux.Completed := false; Mux.CreatedAt := 50 |}]].
Proof. reflexivity. Qed.

(** [FindAll] on the repository holding "a" and "b", visiting 2 first. *)
Lemma FindAll_each_record_once_witness :
  visits_each_key [2; 1] (todos two_todos)
  ∧ let '(found, r') := FindAll [2; 1] two_todos in
    r' = two_todos
    ∧ found ≡ₚ (map_to_list (todos two_todos)).*2
    ∧ length found = size (todos two_todos)
    ∧ ∀ todo, todo ∈ found ↔ ∃ k, todos two_todos !! k = Some todo.
Proof.
  split; [exact two_todos_visit|].
  apply (FindAll_each_record_once [2; 1] two_todos two_todos_visit).
Defined.

Lemma FindAll_agrees_with_FindByID_witness :
  let ops := [OpCreate todo_a 10; OpCreate todo_b 20] in
  visits_each_key [2; 1] (todos (state_after ops))
  ∧ NoDup (ID <$> (FindAll [2; 1] (state_after ops)).1)
  ∧ ∀ todo, todo ∈ (FindAll [2; 1] (state_after ops)).1
            ↔ FindByID (ID todo) (state_after ops)
              = ((todo, None), state_after ops).
Proof.
  cbn zeta. split; [exact two_todos_visit|].
  apply (FindAll_agrees_with_FindByID
           [OpCreate todo_a 10; OpCreate todo_b 20] [2; 1] two_todos_visit).
Defined.


Lemma Create_then_Delete_witness :
  todos two_todos !! nextID two_todos = None
  ∧ let '(created, r1) := Create todo_c 30 two_todos in
    Delete (ID created) r1
    = (None, {| todos := todos two_todos;
                nextID := uint_wrap (nextID two_todos + 1) |}).
Proof.
  split; [reflexivity|].
  apply (Create_then_Delete todo_c 30 two_todos). reflexivity.
Defined.

(** The scenario: three records created, one deleted, two left. *)
Lemma records_are_accounted_for_witness :
  Z.of_nat (count_creates scenario_ops) < uint_modulus - 1
  ∧ (size (todos (state_after scenario_ops))
     + count_deleted (run scenario_ops NewTodoRepository).1
     = count_creates scenario_ops)%nat.
Proof.
  split; [reflexivity|].
  apply (records_are_accounted_for scenario_ops). reflexivity.
Defined.

(** The scenario reads the clock at 10, 20, 30 and 40. *)
Lemma UpdatedAt_not_before_CreatedAt_witness :
  StronglySorted Z.le (clock_readings scenario_ops)
  ∧ ∀ k todo, todos (state_after scenario_ops) !! k = Some todo →
      CreatedAt todo ≤ UpdatedAt todo.
Proof.
  assert (H : StronglySorted Z.le (clock_readings scenario_ops)).
  { repeat (constructor; [|repeat (constructor; try (cbn; lia))]).
    constructor. }
  split; [exact H|].
  apply (UpdatedAt_not_before_CreatedAt scenario_ops H).
Defined.

Lemma Mux_store_invariant_witness :
  Z.of_nat (Mux_count_creates Mux_scenario) < int_max
  ∧ Mux_store_ok (Mux.serve Mux_scenario Mux.NewTodoHandler).2
  ∧ Mux.nextID (Mux.serve Mux_scenario Mux.NewTodoHandler).2
    = 1 + Z.of_nat (Mux_count_creates Mux_scenario).
Proof.
  split; [reflexivity|].
  apply (Mux_store_invariant Mux_scenario). reflexivity.
Defined.

Lemma Mux_ids_sequential_witness :
  Z.of_nat (Mux_count_creates Mux_scenario) < int_max
  ∧ Mux_created_ids (Mux.serve Mux_scenario Mux.NewTodoHandler).1 = [1; 2; 3]
  ∧ NoDup (Mux_created_ids (Mux.serve Mux_scenario Mux.NewTodoHandler).1).
Proof.
  split; [reflexivity|].
  apply (Mux_ids_sequential Mux_scenario). reflexivity.
Defined.

(** Record 2 of the scenario survives an update of 1, the deletion of 1
    and a lookup. *)
Lemma record_lives_until_deleted_witness :
  let ops1 := [OpCreate todo_a 10; OpCreate todo_b 20] in
  let ops2 := [OpUpdate 2 patch_done 40; OpDelete 1; OpCreate todo_c 50] in
  Z.of_nat (count_creates (ops1 ++ ops2)) < uint_modulus - 1
  ∧ Forall (fun op => deletes_id 2 op = false) ops2
  ∧ todos (state_after ops1) !! 2 = Some stored_b
  ∧ ∃ stored, todos (state_after (ops1 ++ ops2)) !! 2 = Some stored
      ∧ ID stored = ID stored_b ∧ CreatedAt stored = CreatedAt stored_b.
Proof.
  cbn zeta.
  assert (H : Forall (fun op => deletes_id 2 op = false)
                [OpUpdate 2 patch_done 40; OpDelete 1; OpCreate todo_c 50])
    by (repeat constructor).
  split; [reflexivity|]. split; [exact H|]. split; [reflexivity|].
  apply (record_lives_until_deleted
           [OpCreate todo_a 10; OpCreate todo_b 20]
           [OpUpdate 2 patch_done 40; OpDelete 1; OpCreate todo_c 50]
           2 stored_b); [reflexivity|exact H|reflexivity].
Defined.

(** Todo 2 of the mux scenario survives a PUT without title, the deletion
    of 3, another creation and a listing. *)
Lemma Mux_record_lives_until_deleted_witness :
  Z.of_nat (Mux_count_creates (Mux_scenario ++ Mux_later)) < int_max
  ∧ Forall (fun req => Mux_deletes_id 2 req = false) Mux_later
  ∧ ∃ stored,
      Mux.todos (Mux.serve (Mux_scenario ++ Mux_later) Mux.NewTodoHandler).2
        !! 2 = Some stored
      ∧ Mux.ID stored = 2 ∧ Mux.CreatedAt stored = 20.
Proof.
  assert (H : Forall (fun req => Mux_deletes_id 2 req = false) Mux_later)
    by (repeat constructor).
  split; [reflexivity|]. split; [exact H|].
  apply (Mux_record_lives_until_deleted Mux_scenario Mux_later 2
           {| Mux.ID := 2; Mux.Title := "b"; Mux.Completed := false;
              Mux.CreatedAt := 20 |});
    [reflexivity|exact H|reflexivity].
Defined.

Lemma Mux_ListTodos_each_record_once_witness :
  let h := (Mux.serve Mux_scenario Mux.NewTodoHandler).2 in
  visits_each_key [3; 2] (Mux.todos h)
  ∧ ∃ listed,
      Mux.ListTodos [3; 2] h = (Mux.Encode_list 200 listed, h)
      ∧ listed ≡ₚ (map_to_list (Mux.todos h)).*2
      ∧ length listed = size (Mux.todos h)
      ∧ ∀ todo, todo ∈ listed ↔ ∃ k, Mux.todos h !! k = Some todo.
Proof.
  cbn zeta. split; [exact Mux_scenario_visit|].
  apply (Mux_ListTodos_each_record_once [3; 2] _ Mux_scenario_visit).
Defined.
